(** * AML rule engine: the velocity rule and its three evaluators

    A shallow embedding of the Go sources
    - [aml_rule_engine.go]   (Transaction, RuleEngine),
    - [amount_processor.go]  (VelocityPeriod, VelocityProcessor),
    - the worker-pool file   (WorkerVelocityProcessor),
    - the fan-out/fan-in file (UserJob, UserResult, ConcurrentVelocityProcessor).

    Go maps are [gmap]s, the flagged-user set [map[uuid.UUID]struct{}] is a
    [gset].  The unspecified iteration order of a Go map is an explicit
    argument (a permutation of the map's entries), and goroutines and
    channels are a labelled transition system whose interleavings are the
    schedules.  Where sharing matters (the caller's slice against the
    per-user slices that [sort.Slice] rearranges in place) slices are
    headers over a store of backing arrays. *)

From stdpp Require Import base numbers list sorting strings gmap relations.
From Stdlib Require Import ZArith Lia.

Local Open Scope Z_scope.

(** ** Time *)

(** [time.Time] is read as an absolute instant in nanoseconds and
    [time.Duration] is Go's int64 count of nanoseconds. *)
Definition Time := Z.
Definition Duration := Z.

Definition minDuration : Duration := - 2 ^ 63.
Definition maxDuration : Duration := 2 ^ 63 - 1.

Definition Nanosecond : Duration := 1.
Definition Second : Duration := 1000000000 * Nanosecond.
Definition Hour : Duration := 3600 * Second.

(** [amount_processor.go]: the named spans. *)
Definition year : Duration := 365 * 24 * Hour.
Definition month : Duration := 30 * 24 * Hour.
Definition week : Duration := 7 * 24 * Hour.

(** [t.Before(u)]. *)
Definition Before (t u : Time) : bool := t <? u.

(** [t.Sub(u)]: the difference, saturated at the ends of the int64 range. *)
Definition Sub (t u : Time) : Duration :=
  if maxDuration <? t - u then maxDuration
  else if t - u <? minDuration then minDuration
  else t - u.

(** [t.Add(d)]. *)
Definition Add (t : Time) (d : Duration) : Time := t + d.

(** ** Data model *)

(** [uuid.UUID] is a 16-byte array, read as the number it spells. *)
Definition UUID := N.

(** [decimal.Decimal]: coefficient and exponent. *)
Record Decimal := { coef : Z; exp : Z }.

Record Transaction := {
  UserID : UUID;
  Amount : Decimal;
  Country : string;
  CreatedAt : Time
}.

Record VelocityPeriod := {
  PeriodDuration : Duration;
  Threshold : Z
}.

Definition NewVelocityPeriod (period : Duration) (threshold : Z) : VelocityPeriod :=
  {| PeriodDuration := period; Threshold := threshold |}.

Record UserJob := {
  JobUserID : UUID;
  Transactions : list Transaction
}.

Record UserResult := {
  ResUserID : UUID;
  HasViolation : bool
}.

(** ** The velocity rule *)

(** [txs[i].CreatedAt].  The loops below only read indices below
    [len(txs)] (lemma [hasViolatedVelocity_reads_in_range]). *)
Definition createdAt (dflt : Time) (txs : list Transaction) (i : nat) : Time :=
  default dflt (CreatedAt <$> txs !! i).

(** The inner loop
    [for left <= right && txs[right].CreatedAt.Sub(txs[left].CreatedAt) > period.Duration { left++ }].
    It runs at most [right + 1 - left] times, which is the fuel given by
    the caller. *)
Fixpoint advanceLeft (dflt : Time) (txs : list Transaction) (d : Duration)
    (right fuel left : nat) : nat :=
  match fuel with
  | O => left
  | S fuel' =>
      if bool_decide (left ≤ right)%nat
         && (d <? Sub (createdAt dflt txs right) (createdAt dflt txs left))
      then advanceLeft dflt txs d right fuel' (S left)
      else left
  end.

(** The outer loop [for right := 0; right < len(txs); right++]; [todo] is
    [len(txs) - right]. *)
Fixpoint windowLoop (dflt : Time) (txs : list Transaction) (period : VelocityPeriod)
    (todo right left : nat) : bool :=
  match todo with
  | O => false
  | S todo' =>
      let left' := advanceLeft dflt txs (PeriodDuration period) right (S right - left) left in
      let windowSize := Z.of_nat right - Z.of_nat left' + 1 in
      if Threshold period <? windowSize then true
      else windowLoop dflt txs period todo' (S right) left'
  end.

(** [hasViolatedVelocity]: the three receivers ([VelocityProcessor],
    [WorkerVelocityProcessor], [ConcurrentVelocityProcessor]) carry the same
    body, which does not read the receiver. *)
Definition hasViolatedVelocityWith (dflt : Time) (txs : list Transaction)
    (period : VelocityPeriod) : bool :=
  windowLoop dflt txs period (length txs) 0 0.

Definition hasViolatedVelocity (txs : list Transaction) (period : VelocityPeriod) : bool :=
  hasViolatedVelocityWith 0 txs period.

(** [hasViolatedVelocityPeriods]: the first violating period returns. *)
Fixpoint hasViolatedVelocityPeriods (periods : list VelocityPeriod)
    (txs : list Transaction) : bool :=
  match periods with
  | [] => false
  | period :: rest =>
      if hasViolatedVelocity txs period then true
      else hasViolatedVelocityPeriods rest txs
  end.

(** ** Sorting and partitioning *)

(** The order [sort.Slice] establishes with
    [less(i, j) = txs[i].CreatedAt.Before(txs[j].CreatedAt)]: an element is
    never [less] than one placed before it. *)
Definition byCreatedAt (a b : Transaction) : Prop :=
  Before (CreatedAt b) (CreatedAt a) = false.

Global Instance byCreatedAt_dec : RelDecision byCreatedAt.
Proof. intros a b. unfold byCreatedAt. apply _. Defined.

(** [sort.Slice(txs, less)].  Go's sort is not stable; the model is one
    sort, and lemma [verdict_any_sorted_order] shows that the verdict is the
    same for every other sorted arrangement. *)
Definition sortSlice (txs : list Transaction) : list Transaction :=
  merge_sort byCreatedAt txs.

(** [userTransactions[tx.UserID] = append(userTransactions[tx.UserID], tx)]. *)
Definition appendTx (m : gmap UUID (list Transaction)) (tx : Transaction)
    : gmap UUID (list Transaction) :=
  <[UserID tx := default [] (m !! UserID tx) ++ [tx]]> m.

(** The grouping loop shared by the three evaluators. *)
Definition partition (transactions : list Transaction) : gmap UUID (list Transaction) :=
  foldl appendTx ∅ transactions.

(** [processUser] of the two concurrent evaluators (same body). *)
Definition processUser (periods : list VelocityPeriod) (userID : UUID)
    (txs : list Transaction) : UserResult :=
  {| ResUserID := userID;
     HasViolation := hasViolatedVelocityPeriods periods (sortSlice txs) |}.

(** ** The sequential evaluator ([amount_processor.go]) *)

(** [context.Context]: [context.Background()] is never done; a cancellable
    context carries whether its [Done] channel has been closed. *)
Inductive Context :=
  | Background
  | Cancellable (fired : bool).

Definition isDone (ctx : Context) : bool :=
  match ctx with
  | Background => false
  | Cancellable fired => fired
  end.

(** The body of [for userID, txs := range userTransactions]: sort the
    user's slice, test the periods, flag the user. *)
Definition flagUser (periods : list VelocityPeriod) (flaggedUsers : gset UUID)
    (entry : UUID * list Transaction) : gset UUID :=
  if hasViolatedVelocityPeriods periods (sortSlice entry.2)
  then {[entry.1]} ∪ flaggedUsers
  else flaggedUsers.

(** The loop over the map, run in a given iteration order. *)
Definition flagUsersIn (periods : list VelocityPeriod)
    (order : list (UUID * list Transaction)) : gset UUID :=
  foldl (flagUser periods) ∅ order.

(** An iteration order of a Go map: its entries, each once, in any order. *)
Definition iterationOrder (m : gmap UUID (list Transaction))
    (order : list (UUID * list Transaction)) : Prop :=
  order ≡ₚ map_to_list m.

Module VelocityProcessor.

Record t := { Periods : list VelocityPeriod }.

Definition NewVelocityValidator (periods : list VelocityPeriod) : t :=
  {| Periods := periods |}.

(** [Process], with the map visited in the order [map_to_list] gives;
    [ProcessIn] is the same loop under any other iteration order. *)
Definition ProcessIn (v : t) (order : list (UUID * list Transaction)) : gset UUID :=
  flagUsersIn (Periods v) order.

Definition Process (v : t) (_ : Context) (transactions : list Transaction) : gset UUID :=
  ProcessIn v (map_to_list (partition transactions)).

End VelocityProcessor.

(** ** Goroutines and channels of the two concurrent evaluators *)

(** Both evaluators run the same four kinds of goroutine: a producer that
    sends one [UserJob] per map entry and then closes the job channel,
    [WorkerCount] workers, a goroutine that closes the result channel once
    the wait group is released, and the caller, which folds the results.
    They differ in the channel capacities and in whether a worker's send
    of its result is a [select] with [ctx.Done()]. *)
Record PoolConfig := {
  jobCap : nat;
  resCap : nat;
  sendSelectsDone : bool
}.

(** Where a worker goroutine stands. *)
Inductive Worker :=
  | Receiving                    (* at [for job := range jobs] *)
  | Checking (job : UserJob)     (* holds a job, at [select { case <-ctx.Done(): ... default: ... }] *)
  | Sending (result : UserResult) (* [processUser] returned, at the send on [results] *)
  | Exited.                      (* returned; [wg.Done()] has run *)

Record Pool := {
  ctx : Context;
  pending : list (UUID * list Transaction);  (* map entries the producer has not sent yet *)
  jobsClosed : bool;            (* the producer returned and closed [userJobs] *)
  jobsQ : list UserJob;         (* buffer of [userJobs] *)
  workers : list Worker;
  resultsQ : list UserResult;   (* buffer of [results] *)
  resultsClosed : bool;
  flaggedUsers : gset UUID;     (* the caller's map *)
  returned : bool               (* the caller's [range results] loop has ended *)
}.

(** One scheduling decision. *)
Inductive Action :=
  | Cancel                 (* the context's owner cancels it *)
  | ProducerSend           (* [case userJobs <- UserJob{...}] *)
  | ProducerAbort          (* [case <-ctx.Done(): return] in the producer *)
  | ProducerClose          (* loop over, deferred [close(userJobs)] *)
  | WorkerReceive (i : nat) (* [range jobs] yields a job *)
  | WorkerDrained (i : nat) (* [range jobs] ends: channel closed and empty *)
  | WorkerCheck (i : nat)   (* the [select] with [default] *)
  | WorkerSend (i : nat)    (* the send on [results] *)
  | WorkerSendAbort (i : nat) (* [case <-ctx.Done(): return] next to the send *)
  | CloseResults           (* [wg.Wait(); close(results)] *)
  | Collect                (* the caller receives one result *)
  | Return.                (* [range results] ends, [Process] returns *)

Inductive Outcome :=
  | Next (s : Pool)
  | Disabled     (* the goroutine is not at this point or is blocked *)
  | Panics.      (* a send on a closed channel *)

Definition withWorker (s : Pool) (i : nat) (w : Worker) : Pool :=
  {| ctx := ctx s; pending := pending s; jobsClosed := jobsClosed s; jobsQ := jobsQ s;
     workers := <[i := w]> (workers s); resultsQ := resultsQ s;
     resultsClosed := resultsClosed s; flaggedUsers := flaggedUsers s;
     returned := returned s |}.

(** [if result.HasViolation { flaggedUsers[result.UserID] = struct{}{} }]. *)
Definition collect (flagged : gset UUID) (result : UserResult) : gset UUID :=
  if HasViolation result then {[ResUserID result]} ∪ flagged else flagged.

Definition allExited (ws : list Worker) : bool :=
  forallb (λ w, match w with Exited => true | _ => false end) ws.

Definition fire (cfg : PoolConfig) (periods : list VelocityPeriod)
    (a : Action) (s : Pool) : Outcome :=
  match a with
  | Cancel =>
      match ctx s with
      | Cancellable false =>
          Next {| ctx := Cancellable true; pending := pending s;
                  jobsClosed := jobsClosed s; jobsQ := jobsQ s; workers := workers s;
                  resultsQ := resultsQ s; resultsClosed := resultsClosed s;
                  flaggedUsers := flaggedUsers s; returned := returned s |}
      | _ => Disabled
      end
  | ProducerSend =>
      match jobsClosed s, pending s with
      | false, (userID, txs) :: rest =>
          if bool_decide (length (jobsQ s) < jobCap cfg)%nat then
            Next {| ctx := ctx s; pending := rest; jobsClosed := false;
                    jobsQ := jobsQ s ++ [{| JobUserID := userID; Transactions := txs |}];
                    workers := workers s; resultsQ := resultsQ s;
                    resultsClosed := resultsClosed s; flaggedUsers := flaggedUsers s;
                    returned := returned s |}
          else Disabled
      | _, _ => Disabled
      end
  | ProducerAbort =>
      match jobsClosed s, pending s with
      | false, _ :: _ =>
          if isDone (ctx s) then
            Next {| ctx := ctx s; pending := pending s; jobsClosed := true;
                    jobsQ := jobsQ s; workers := workers s; resultsQ := resultsQ s;
                    resultsClosed := resultsClosed s; flaggedUsers := flaggedUsers s;
                    returned := returned s |}
          else Disabled
      | _, _ => Disabled
      end
  | ProducerClose =>
      match jobsClosed s, pending s with
      | false, [] =>
          Next {| ctx := ctx s; pending := []; jobsClosed := true;
                  jobsQ := jobsQ s; workers := workers s; resultsQ := resultsQ s;
                  resultsClosed := resultsClosed s; flaggedUsers := flaggedUsers s;
                  returned := returned s |}
      | _, _ => Disabled
      end
  | WorkerReceive i =>
      match workers s !! i, jobsQ s with
      | Some Receiving, job :: rest =>
          Next {| ctx := ctx s; pending := pending s; jobsClosed := jobsClosed s;
                  jobsQ := rest; workers := <[i := Checking job]> (workers s);
                  resultsQ := resultsQ s; resultsClosed := resultsClosed s;
                  flaggedUsers := flaggedUsers s; returned := returned s |}
      | _, _ => Disabled
      end
  | WorkerDrained i =>
      match workers s !! i, jobsQ s with
      | Some Receiving, [] =>
          if jobsClosed s then Next (withWorker s i Exited) else Disabled
      | _, _ => Disabled
      end
  | WorkerCheck i =>
      match workers s !! i with
      | Some (Checking job) =>
          if isDone (ctx s) then Next (withWorker s i Exited)
          else Next (withWorker s i
                       (Sending (processUser periods (JobUserID job) (Transactions job))))
      | _ => Disabled
      end
  | WorkerSend i =>
      match workers s !! i with
      | Some (Sending result) =>
          if resultsClosed s then Panics
          else if bool_decide (length (resultsQ s) < resCap cfg)%nat then
            Next {| ctx := ctx s; pending := pending s; jobsClosed := jobsClosed s;
                    jobsQ := jobsQ s; workers := <[i := Receiving]> (workers s);
                    resultsQ := resultsQ s ++ [result]; resultsClosed := false;
                    flaggedUsers := flaggedUsers s; returned := returned s |}
          else Disabled
      | _ => Disabled
      end
  | WorkerSendAbort i =>
      match workers s !! i with
      | Some (Sending _) =>
          if sendSelectsDone cfg && isDone (ctx s)
          then Next (withWorker s i Exited) else Disabled
      | _ => Disabled
      end
  | CloseResults =>
      if negb (resultsClosed s) && allExited (workers s) then
        Next {| ctx := ctx s; pending := pending s; jobsClosed := jobsClosed s;
                jobsQ := jobsQ s; workers := workers s; resultsQ := resultsQ s;
                resultsClosed := true; flaggedUsers := flaggedUsers s;
                returned := returned s |}
      else Disabled
  | Collect =>
      match returned s, resultsQ s with
      | false, result :: rest =>
          Next {| ctx := ctx s; pending := pending s; jobsClosed := jobsClosed s;
                  jobsQ := jobsQ s; workers := workers s; resultsQ := rest;
                  resultsClosed := resultsClosed s;
                  flaggedUsers := collect (flaggedUsers s) result;
                  returned := false |}
      | _, _ => Disabled
      end
  | Return =>
      match returned s, resultsQ s with
      | false, [] =>
          if resultsClosed s then
            Next {| ctx := ctx s; pending := pending s; jobsClosed := jobsClosed s;
                    jobsQ := jobsQ s; workers := workers s; resultsQ := [];
                    resultsClosed := true; flaggedUsers := flaggedUsers s;
                    returned := true |}
          else Disabled
      | _, _ => Disabled
      end
  end.

Definition step (cfg : PoolConfig) (periods : list VelocityPeriod) (s s' : Pool) : Prop :=
  ∃ a, fire cfg periods a s = Next s'.

(** A schedule run from a state; [None] when it names a step that cannot
    be taken. *)
Fixpoint runSchedule (cfg : PoolConfig) (periods : list VelocityPeriod)
    (schedule : list Action) (s : Pool) : option Pool :=
  match schedule with
  | [] => Some s
  | a :: rest =>
      match fire cfg periods a s with
      | Next s' => runSchedule cfg periods rest s'
      | _ => None
      end
  end.

(** The state when [Process] has started its goroutines. *)
Definition start (c : Context) (order : list (UUID * list Transaction))
    (workerCount : Z) : Pool :=
  {| ctx := c; pending := order; jobsClosed := false; jobsQ := [];
     workers := replicate (Z.to_nat workerCount) Receiving;
     resultsQ := []; resultsClosed := false; flaggedUsers := ∅; returned := false |}.

(** [Process] can return [flagged] with the context in state [c']: under
    some iteration order of the map and some schedule the caller's loop
    ends with that set. *)
Definition poolReturns (cfg : PoolConfig) (periods : list VelocityPeriod)
    (c : Context) (workerCount : Z) (transactions : list Transaction)
    (c' : Context) (flagged : gset UUID) : Prop :=
  ∃ order s,
    iterationOrder (partition transactions) order
    ∧ rtc (step cfg periods) (start c order workerCount) s
    ∧ returned s = true
    ∧ ctx s = c'
    ∧ flaggedUsers s = flagged.

(** Nothing is left to schedule. *)
Definition quiescent (cfg : PoolConfig) (periods : list VelocityPeriod) (s : Pool) : Prop :=
  ∀ a s', fire cfg periods a s ≠ Next s'.

(** A bound on the number of steps still possible. *)
Definition workerWeight (w : Worker) : nat :=
  match w with
  | Receiving => 1
  | Checking _ => 4
  | Sending _ => 3
  | Exited => 0
  end.

Definition stepsLeft (s : Pool) : nat :=
  ((match ctx s with Cancellable false => 1 | _ => 0 end)
   + (if jobsClosed s then 0 else 1 + 5 * length (pending s))
   + 4 * length (jobsQ s)
   + sum_list (workerWeight <$> workers s)
   + length (resultsQ s)
   + (if resultsClosed s then 0 else 1)
   + (if returned s then 0 else 1))%nat.

Module WorkerVelocityProcessor.

Record t := { Periods : list VelocityPeriod; WorkerCount : Z }.

Definition NewWorkerVelocityProcessor (periods : list VelocityPeriod)
    (workerCount : Z) : t :=
  let workerCount := if workerCount <=? 0 then 4 else workerCount in
  {| Periods := periods; WorkerCount := workerCount |}.

(** [make(chan UserJob, len(userTransactions))] and the same for the
    results; the worker's send is a [select] with [ctx.Done()].  With no
    user at all both channels are unbuffered and nothing is ever sent. *)
Definition config (transactions : list Transaction) : PoolConfig :=
  {| jobCap := size (partition transactions);
     resCap := size (partition transactions);
     sendSelectsDone := true |}.

Definition Returns (v : t) (c : Context) (transactions : list Transaction)
    (c' : Context) (flagged : gset UUID) : Prop :=
  poolReturns (config transactions) (Periods v) c (WorkerCount v) transactions
    c' flagged.

End WorkerVelocityProcessor.

Module ConcurrentVelocityProcessor.

Record t := { Periods : list VelocityPeriod; WorkerCount : Z }.

Definition NewConcurrentVelocityProcessor (periods : list VelocityPeriod)
    (workerCount : Z) : t :=
  {| Periods := periods; WorkerCount := workerCount |}.

(** [make(chan UserJob, 1000)], [make(chan UserResult, 1000)]; the
    worker's send [results <- result] is a plain send. *)
Definition config : PoolConfig :=
  {| jobCap := 1000; resCap := 1000; sendSelectsDone := false |}.

Definition Returns (v : t) (c : Context) (transactions : list Transaction)
    (c' : Context) (flagged : gset UUID) : Prop :=
  poolReturns config (Periods v) c (WorkerCount v) transactions c' flagged.

End ConcurrentVelocityProcessor.

(** ** Windows over a user's timestamps *)

(** [u] lies in the window of span [d] that ends at [t]. *)
Definition inWindow (d : Duration) (t u : Time) : Prop :=
  u ≤ t ∧ Sub t u ≤ d.

Global Instance inWindow_dec d t u : Decision (inWindow d t u).
Proof. unfold inWindow. apply _. Defined.

(** How many of the timestamps [ts] the window ending at [t] holds. *)
Definition windowCount (d : Duration) (ts : list Time) (t : Time) : nat :=
  length (filter (inWindow d t) ts).

(** Some window ending at one of the timestamps holds more than [k] of them. *)
Definition denseWindow (d : Duration) (k : Z) (ts : list Time) : Prop :=
  Exists (λ t, k < Z.of_nat (windowCount d ts t)) ts.

Global Instance denseWindow_dec d k ts : Decision (denseWindow d k ts).
Proof. unfold denseWindow. apply _. Defined.

(** A set of timestamps fits in a span of length at most [d]: any two of
    them are at most [d] apart, as [Sub] measures it. *)
Definition withinSpan (d : Duration) (w : list Time) : Prop :=
  ∀ a b, a ∈ w → b ∈ w → Sub a b ≤ d.

(** The same with the distance between two instants taken as it is on the
    time line, not as [Sub] reports it: any two of the timestamps are at
    most [d] nanoseconds apart. *)
Definition withinExactSpan (d : Duration) (w : list Time) : Prop :=
  ∀ a b, a ∈ w → b ∈ w → a - b ≤ d.

(** The timestamps of one user's transactions in a batch. *)
Definition timestampsOf (userID : UUID) (transactions : list Transaction) : list Time :=
  CreatedAt <$> filter (λ tx, UserID tx = userID) transactions.

(** What the outer loop of [hasViolatedVelocity] has established about
    [left] when it reaches [right]: every transaction before [left] is more
    than [d] older than the one at [right]. *)
Definition leftInv (dflt : Time) (txs : list Transaction) (d : Duration)
    (right left : nat) : Prop :=
  (left ≤ right)%nat
  ∧ ∀ i, (i < left)%nat → (right < length txs)%nat →
      d < Sub (createdAt dflt txs right) (createdAt dflt txs i).

(** The verdict on one user: some configured period has a dense window. *)
Definition violatesSome (periods : list VelocityPeriod) (ts : list Time) : Prop :=
  ∃ period, period ∈ periods
            ∧ denseWindow (PeriodDuration period) (Threshold period) ts.

(** ** What a state of the pool still owes *)

Definition entryOf (job : UserJob) : UUID * list Transaction :=
  (JobUserID job, Transactions job).

(** The users a worker is about to report. *)
Definition workerFlags (periods : list VelocityPeriod) (w : Worker) : gset UUID :=
  match w with
  | Checking job => flagUser periods ∅ (entryOf job)
  | Sending result => collect ∅ result
  | _ => ∅
  end.

(** The flagged users already collected together with those that the
    results, workers, queued jobs and unsent map entries would add. *)
Definition accounted (periods : list VelocityPeriod) (s : Pool) : gset UUID :=
  flaggedUsers s
  ∪ ⋃ (collect ∅ <$> resultsQ s)
  ∪ ⋃ (workerFlags periods <$> workers s)
  ∪ flagUsersIn periods (entryOf <$> jobsQ s)
  ∪ flagUsersIn periods (pending s).

Definition busy (w : Worker) : nat :=
  match w with
  | Checking _ | Sending _ => 1
  | _ => 0
  end.

(** Jobs and results that are somewhere between the map and the caller. *)
Definition inFlight (s : Pool) : nat :=
  (length (pending s) + length (jobsQ s) + sum_list (busy <$> workers s)
   + length (resultsQ s))%nat.

(** The invariant of a run that started from context [c0] with [n] workers
    and [total] map entries whose sequential verdict is [target]. *)
Record poolInv (periods : list VelocityPeriod) (target : gset UUID)
    (c0 : Context) (n total : nat) (s : Pool) : Prop := {
  inv_sub : accounted periods s ⊆ target;
  inv_eq : isDone (ctx s) = false → accounted periods s = target;
  inv_closed : resultsClosed s = true → allExited (workers s) = true;
  inv_exited : Exited ∈ workers s →
               isDone (ctx s) = true ∨ (jobsClosed s = true ∧ jobsQ s = []);
  inv_jobsClosed : jobsClosed s = true → isDone (ctx s) = true ∨ pending s = [];
  inv_returned : returned s = true → resultsClosed s = true ∧ resultsQ s = [];
  inv_workers : length (workers s) = n;
  inv_flight : (inFlight s ≤ total)%nat;
  inv_ctx : c0 = Background → ctx s = Background
}.

(** The channels can take an element whenever there is a job at all. *)
Definition roomy (cfg : PoolConfig) (total : nat) : Prop :=
  (0 < total)%nat → (0 < jobCap cfg)%nat ∧ (0 < resCap cfg)%nat.

(** ** The rule engine ([aml_rule_engine.go]) *)

(** The implementations of the [RuleProcessor] interface in the package.
    (The second copy of [aml_rule_engine.go] calls them validators and
    names the engine's field [validators]; the code is the same.) *)
Inductive RuleProcessor :=
  | Velocity (v : VelocityProcessor.t)
  | WorkerVelocity (v : WorkerVelocityProcessor.t)
  | ConcurrentVelocity (v : ConcurrentVelocityProcessor.t)
  | CountryBlackList (blacklist : gset string)
  | TransactionAmount (threshold : Decimal).

Record RuleEngine := { processors : list RuleProcessor }.

(** [return &RuleEngine{processors: make([]RuleProcessor, 0)}]: the
    argument is not read. *)
Definition NewRuleEngine (validators : list RuleProcessor) : RuleEngine :=
  {| processors := [] |}.

(** [r.processors = append(r.processors, processor)], the engine after the
    call. *)
Definition AddRuleProcessor (r : RuleEngine) (processor : RuleProcessor) : RuleEngine :=
  {| processors := processors r ++ [processor] |}.

(** ** Behaviour of a run under cancellation *)

(** What a state [s] of a run owes the caller: no enabled step panics,
    some schedule lets [Process] return, every step uses up the bound
    [stepsLeft], a returned set holds only users of the sequential verdict
    [verdict], no worker enters [processUser] once the context is done, and
    when nothing is left to run the caller has returned, all workers have
    exited and, if the context is done, so has the producer. *)
Record behaves (cfg : PoolConfig) (periods : list VelocityPeriod)
    (verdict : gset UUID) (s : Pool) : Prop := {
  never_panics : ∀ a, fire cfg periods a s ≠ Panics;
  can_return : ∃ s', rtc (step cfg periods) s s' ∧ returned s' = true;
  steps_bounded : ∀ a s', fire cfg periods a s = Next s' →
                          (stepsLeft s' < stepsLeft s)%nat;
  returns_subset : returned s = true → flaggedUsers s ⊆ verdict;
  no_new_job : isDone (ctx s) = true →
               ∀ a s' i result,
                 fire cfg periods a s = Next s' →
                 workers s' !! i = Some (Sending result) →
                 workers s !! i = Some (Sending result);
  no_leak : quiescent cfg periods s →
            returned s = true
            ∧ allExited (workers s) = true
            ∧ (isDone (ctx s) = true → jobsClosed s = true)
}.

(** ** The three evaluators behind one contract *)

(** [NewVelocityValidator(periods).Process(ctx, transactions)]; the
    sequential evaluator does not read its context. *)
Definition sequential (periods : list VelocityPeriod)
    (transactions : list Transaction) : gset UUID :=
  VelocityProcessor.Process (VelocityProcessor.NewVelocityValidator periods)
    Background transactions.

(** [NewWorkerVelocityProcessor(periods, workerCount).Process(ctx, transactions)]
    can return [flagged] with the context in state [c']. *)
Definition workerPool (periods : list VelocityPeriod) (workerCount : Z)
    (c : Context) (transactions : list Transaction)
    (c' : Context) (flagged : gset UUID) : Prop :=
  WorkerVelocityProcessor.Returns
    (WorkerVelocityProcessor.NewWorkerVelocityProcessor periods workerCount)
    c transactions c' flagged.

(** [NewConcurrentVelocityProcessor(periods, workerCount).Process(ctx, transactions)]
    can return [flagged] with the context in state [c']. *)
Definition pipeline (periods : list VelocityPeriod) (workerCount : Z)
    (c : Context) (transactions : list Transaction)
    (c' : Context) (flagged : gset UUID) : Prop :=
  ConcurrentVelocityProcessor.Returns
    (ConcurrentVelocityProcessor.NewConcurrentVelocityProcessor periods workerCount)
    c transactions c' flagged.

(** ** Test data, after [velocity_processor_test.go] *)

Definition mkTx (userID : UUID) (createdAt : Time) : Transaction :=
  {| UserID := userID; Amount := {| coef := 100; exp := 0 |}; Country := "";
     CreatedAt := createdAt |}.

Definition userID1 : UUID := 1%N.
Definition userID2 : UUID := 2%N.

(** "multiple users - one violation". *)
Definition oneViolation : list Transaction :=
  [mkTx userID1 0; mkTx userID1 (Add 0 (1 * Hour)); mkTx userID1 (Add 0 (2 * Hour));
   mkTx userID2 (Add 0 (3 * Hour))].

(** "exact threshold - no violation". *)
Definition exactThreshold : list Transaction :=
  [mkTx userID1 0; mkTx userID1 (Add 0 (1 * Hour)); mkTx userID1 (Add 0 (2 * Hour))].

(** "unsorted transactions" and the same transactions sorted. *)
Definition unsortedFour : list Transaction :=
  [mkTx userID1 (Add 0 (3 * Hour)); mkTx userID1 0; mkTx userID1 (Add 0 (2 * Hour));
   mkTx userID1 (Add 0 (1 * Hour))].

Definition sortedFour : list Transaction :=
  [mkTx userID1 0; mkTx userID1 (Add 0 (1 * Hour)); mkTx userID1 (Add 0 (2 * Hour));
   mkTx userID1 (Add 0 (3 * Hour))].

(** Two transactions of one user 330 years apart, the later one reached by
    [Add] in two steps of 165 years (a [Duration] holds about 292 years). *)
Definition farApart : list Transaction :=
  [mkTx userID1 0; mkTx userID1 (Add (Add 0 (165 * year)) (165 * year))].

(** ** Slices and their backing arrays *)

(** The caller's slice, the per-user slices grown by [append] and the
    in-place [sort.Slice] are modelled on a store of backing arrays, so
    that sharing between them can be stated. *)
Definition loc := positive.

(** The store: every allocated backing array, in full capacity. *)
Abbreviation Heap := (gmap loc (list Transaction)).

(** A slice header; a nil slice has no array. *)
Record Slice := {
  array : option loc;
  offset : nat;
  len : nat;
  capacity : nat
}.

Definition nilSlice : Slice :=
  {| array := None; offset := 0; len := 0; capacity := 0 |}.

(** The zero value that fills the unused capacity of a new array. *)
Definition zeroTransaction : Transaction :=
  {| UserID := 0%N; Amount := {| coef := 0; exp := 0 |}; Country := "";
     CreatedAt := 0 |}.

(** The elements [s[0] .. s[len(s)-1]]. *)
Definition elems (h : Heap) (s : Slice) : list Transaction :=
  match array s with
  | Some a => take (len s) (drop (offset s) (default [] (h !! a)))
  | None => []
  end.

(** [append(s, tx)].  With spare capacity the element is written into the
    slice's own array; otherwise a new array of capacity [growCap (cap s)]
    is allocated and the elements are copied over.  How Go's runtime picks
    the new capacity is left open in [growCap]. *)
Definition append (growCap : nat → nat) (h : Heap) (s : Slice) (tx : Transaction)
    : Heap * Slice :=
  match array s with
  | Some a =>
      if bool_decide (len s < capacity s)%nat then
        (<[a := <[(offset s + len s)%nat := tx]> (default [] (h !! a))]> h,
         {| array := Some a; offset := offset s; len := S (len s);
            capacity := capacity s |})
      else
        let a' := fresh (dom h) in
        let c := growCap (capacity s) in
        (<[a' := elems h s ++ tx :: replicate (c - S (len s)) zeroTransaction]> h,
         {| array := Some a'; offset := 0; len := S (len s); capacity := c |})
  | None =>
      let a' := fresh (dom h) in
      let c := growCap (capacity s) in
      (<[a' := elems h s ++ tx :: replicate (c - S (len s)) zeroTransaction]> h,
       {| array := Some a'; offset := 0; len := S (len s); capacity := c |})
  end.

(** [sort.Slice(txs, ...)]: the slice's part of its array is rearranged in
    place. *)
Definition sortInPlace (h : Heap) (s : Slice) : Heap :=
  match array s with
  | Some a =>
      let content := default [] (h !! a) in
      <[a := take (offset s) content
             ++ sortSlice (take (len s) (drop (offset s) content))
             ++ drop (offset s + len s) content]> h
  | None => h
  end.

(** [userTransactions[tx.UserID] = append(userTransactions[tx.UserID], tx)]
    on the store; a missing key reads as the nil slice. *)
Definition appendTxHeap (growCap : nat → nat) (st : Heap * gmap UUID Slice)
    (tx : Transaction) : Heap * gmap UUID Slice :=
  let '(h', s') := append growCap st.1 (default nilSlice (st.2 !! UserID tx)) tx in
  (h', <[UserID tx := s']> st.2).

(** The grouping loop over the caller's slice [transactions]; [range]
    copies each element. *)
Definition partitionHeap (growCap : nat → nat) (h : Heap) (transactions : Slice)
    : Heap * gmap UUID Slice :=
  foldl (appendTxHeap growCap) (h, ∅) (elems h transactions).

(** One turn of [for userID, txs := range userTransactions] in the
    sequential evaluator, and [processUser] in the other two: sort in
    place, then test the periods on the sorted slice. *)
Definition processUserHeap (periods : list VelocityPeriod)
    (st : Heap * gset UUID) (entry : UUID * Slice) : Heap * gset UUID :=
  let h' := sortInPlace st.1 entry.2 in
  (h', if hasViolatedVelocityPeriods periods (elems h' entry.2)
       then {[entry.1]} ∪ st.2 else st.2).

(** The jobs of a call, run in the order [jobs]: the iteration order of
    the map for the sequential evaluator, the order in which the workers
    happened to take them (possibly not all, after a cancellation) for the
    other two. *)
Definition processHeap (growCap : nat → nat) (periods : list VelocityPeriod)
    (h : Heap) (transactions : Slice) (jobs : list (UUID * Slice))
    : Heap * gset UUID :=
  foldl (processUserHeap periods) ((partitionHeap growCap h transactions).1, ∅) jobs.

(** The jobs a call can run are entries of its map. *)
Definition jobsOf (growCap : nat → nat) (h : Heap) (transactions : Slice)
    (jobs : list (UUID * Slice)) : Prop :=
  ∀ u s, (u, s) ∈ jobs → (partitionHeap growCap h transactions).2 !! u = Some s.

(** What the partitioning has built after the transactions [seen], from
    the initial store [h0]: the old arrays are as they were, and every
    user with a transaction has a slice on an array of its own that did
    not exist before and holds that user's transactions. *)
Record partitioned (h0 : Heap) (seen : list Transaction)
    (st : Heap * gmap UUID Slice) : Prop := {
  old_kept : ∀ l, l ∈ dom h0 → st.1 !! l = h0 !! l;
  own_array : ∀ u s, st.2 !! u = Some s →
    ∃ a content,
      array s = Some a ∧ offset s = 0%nat ∧ (a ∉ dom h0)
      ∧ st.1 !! a = Some content
      ∧ length content = capacity s ∧ (len s ≤ capacity s)%nat
      ∧ take (len s) content = filter (λ tx, UserID tx = u) seen;
  no_sharing : ∀ u u' s s', u ≠ u' → st.2 !! u = Some s → st.2 !! u' = Some s' →
    array s ≠ array s';
  no_stranger : ∀ u, st.2 !! u = None → filter (λ tx, UserID tx = u) seen = []
}.

(** While the jobs run: the old arrays are as they were, and every slice
    of the map still holds, on an array that did not exist before the
    call, the user's transactions in some order. *)
Record processing (h0 : Heap) (seen : list Transaction) (m : gmap UUID Slice)
    (h : Heap) : Prop := {
  old_untouched : ∀ l, l ∈ dom h0 → h !! l = h0 !! l;
  own_content : ∀ u s, m !! u = Some s →
    ∃ a content,
      array s = Some a ∧ offset s = 0%nat ∧ (a ∉ dom h0)
      ∧ h !! a = Some content
      ∧ take (len s) content ≡ₚ filter (λ tx, UserID tx = u) seen;
  apart : ∀ u u' s s', u ≠ u' → m !! u = Some s → m !! u' = Some s' →
    array s ≠ array s'
}.

(** The caller's slice points into the store. *)
Definition allocated (h : Heap) (s : Slice) : Prop :=
  ∀ a, array s = Some a → a ∈ dom h.

(** A growth policy for [append], and a caller's store holding the batch
    of the "unsorted transactions" test in one array. *)
Definition doubleCap (c : nat) : nat := Nat.max 1 (2 * c).

Definition callerHeap : Heap := {[ 1%positive := unsortedFour ]}.

Definition callerSlice : Slice :=
  {| array := Some 1%positive; offset := 0; len := 4; capacity := 4 |}.

(** ** The two stateless rules *)

(** [country_blacklist_processor.go].  [Blacklist] is a
    [map[string]struct{}] used as a set; a nil map reads as the empty
    one. *)
Module CountryBlackListProcessor.

Record t := { Blacklist : gset string }.

(** The body of the loop:
    [if _, exists := c.Blacklist[tx.Country]; exists { flaggedUsers[tx.UserID] = struct{}{} }]. *)
Definition flag (c : t) (flaggedUsers : gset UUID) (tx : Transaction) : gset UUID :=
  if decide (Country tx ∈ Blacklist c) then {[UserID tx]} ∪ flaggedUsers
  else flaggedUsers.

Definition Process (c : t) (_ : Context) (transactions : list Transaction) : gset UUID :=
  foldl (flag c) ∅ transactions.

End CountryBlackListProcessor.

(** [amount_processor.go], [TransactionAmountProcessor].  The comparison
    [decimal.Decimal.GreaterThan] belongs to the decimal library and is
    taken as the parameter [GreaterThan]. *)
Module TransactionAmountProcessor.

Record t := { Threshold : Decimal }.

(** [if tx.Amount.GreaterThan(c.Threshold) { flaggedUsers[tx.UserID] = struct{}{} }]. *)
Definition flag (GreaterThan : Decimal → Decimal → bool) (c : t)
    (flaggedUsers : gset UUID) (tx : Transaction) : gset UUID :=
  if GreaterThan (Amount tx) (Threshold c) then {[UserID tx]} ∪ flaggedUsers
  else flaggedUsers.

Definition Process (GreaterThan : Decimal → Decimal → bool) (c : t) (_ : Context)
    (transactions : list Transaction) : gset UUID :=
  foldl (flag GreaterThan c) ∅ transactions.

End TransactionAmountProcessor.

(** ** The single-window rule of the earlier [aml_rule_engine.go] *)

(** [VelocityValidator] carries one window and one threshold and has its
    own copy of the two loops. *)
Module VelocityValidator.

Record t := { Threshold : Z; Window : Duration }.

(** [for left <= right && txs[right].CreatedAt.Sub(txs[left].CreatedAt) > c.Window { left++ }]. *)
Fixpoint advance (c : t) (txs : list Transaction) (right fuel left : nat) : nat :=
  match fuel with
  | O => left
  | S fuel' =>
      if bool_decide (left ≤ right)%nat
         && (Window c <? Sub (createdAt 0 txs right) (createdAt 0 txs left))
      then advance c txs right fuel' (S left)
      else left
  end.

(** [for right := 0; right < len(txs); right++ { ... }]; [todo] is
    [len(txs) - right]. *)
Fixpoint loop (c : t) (txs : list Transaction) (todo right left : nat) : bool :=
  match todo with
  | O => false
  | S todo' =>
      let left' := advance c txs right (S right - left) left in
      let windowSize := Z.of_nat right - Z.of_nat left' + 1 in
      if Threshold c <? windowSize then true
      else loop c txs todo' (S right) left'
  end.

Definition checkVelocityWithSlidingWindow (c : t) (txs : list Transaction) : bool :=
  loop c txs (length txs) 0 0.

(** The body of [for userID, txs := range userTransactions]. *)
Definition flagUser (c : t) (flaggedUsers : gset UUID)
    (entry : UUID * list Transaction) : gset UUID :=
  if checkVelocityWithSlidingWindow c (sortSlice entry.2)
  then {[entry.1]} ∪ flaggedUsers
  else flaggedUsers.

(** [Process], the map visited in the order [order]; an empty batch
    returns before anything is built. *)
Definition ProcessIn (c : t) (transactions : list Transaction)
    (order : list (UUID * list Transaction)) : gset UUID :=
  match transactions with
  | [] => ∅
  | _ => foldl (flagUser c) ∅ order
  end.

Definition Process (c : t) (_ : Context) (transactions : list Transaction) : gset UUID :=
  ProcessIn c transactions (map_to_list (partition transactions)).

End VelocityValidator.

(** ** Vocabulary for the further properties *)

(** The users that have a transaction in the batch. *)
Definition usersOf (transactions : list Transaction) : gset UUID :=
  list_to_set (UserID <$> transactions).

(** A state of a run whose context was done before any worker took a job:
    no worker stands at its send, no result is queued, nobody is
    flagged. *)
Definition barren (s : Pool) : Prop :=
  isDone (ctx s) = true
  ∧ (∀ i result, workers s !! i ≠ Some (Sending result))
  ∧ resultsQ s = []
  ∧ flaggedUsers s = ∅.

(** A state of a run without workers under [context.Background()]: the
    jobs sent so far sit in the buffer, in order, followed in the map's
    order by those not yet sent. *)
Definition unserved (cfg : PoolConfig) (order : list (UUID * list Transaction))
    (s : Pool) : Prop :=
  workers s = []
  ∧ ctx s = Background
  ∧ (entryOf <$> jobsQ s) ++ pending s = order
  ∧ (length (jobsQ s) ≤ jobCap cfg)%nat
  ∧ (jobsClosed s = true → pending s = []).

(** A batch of 1001 users with one transaction each. *)
Definition manyUsers : list Transaction :=
  (λ n, mkTx (N.of_nat n) 0) <$> seq 0 1001.

(** [fanIn], and the same loop at the end of
    [WorkerVelocityProcessor.Process]: the fold over the results in the
    order in which they are received. *)
Definition fanIn (results : list UserResult) : gset UUID :=
  foldl collect ∅ results.


(** A caller's store holding the two-user batch in one array. *)
Definition twoUserHeap : Heap := {[ 1%positive := oneViolation ]}.
(** * Properties *)

(** ** Time arithmetic *)

Ltac split_ltb :=
  repeat match goal with
         | |- context [?a <? ?b] => destruct (Z.ltb_spec a b)
         | H : context [?a <? ?b] |- _ => destruct (Z.ltb_spec a b)
         end.

Lemma Sub_mono_l t t' u : t ≤ t' → Sub t u ≤ Sub t' u.
Proof. unfold Sub, maxDuration, minDuration. intros. split_ltb; lia. Qed.

Lemma Sub_mono_r t u u' : u ≤ u' → Sub t u' ≤ Sub t u.
Proof. unfold Sub, maxDuration, minDuration. intros. split_ltb; lia. Qed.

Lemma Sub_diag t : Sub t t = 0.
Proof. unfold Sub. rewrite Z.sub_diag. reflexivity. Qed.

(** Inside the int64 range [Sub] is the exact difference. *)
Lemma Sub_exact t u : minDuration ≤ t - u ≤ maxDuration → Sub t u = t - u.
Proof. unfold Sub. intros. split_ltb; lia. Qed.

Lemma byCreatedAt_le a b : byCreatedAt a b ↔ CreatedAt a ≤ CreatedAt b.
Proof. unfold byCreatedAt, Before. apply Z.ltb_ge. Qed.

(** ** Lists: filters that keep everything or nothing *)

Lemma filter_all {A} (P : A → Prop) `{∀ x, Decision (P x)} (l : list A) :
  Forall P l → filter P l = l.
Proof.
  induction 1 as [|x l Hx _ IH]; [done|].
  rewrite filter_cons_True by done. by rewrite IH.
Qed.

Lemma filter_none {A} (P : A → Prop) `{∀ x, Decision (P x)} (l : list A) :
  Forall (λ x, ¬ P x) l → filter P l = [].
Proof.
  induction 1 as [|x l Hx _ IH]; [done|].
  by rewrite filter_cons_False.
Qed.

Lemma filter_submseteq_mono {A} (P : A → Prop) `{∀ x, Decision (P x)} (l k : list A) :
  l ⊆+ k → filter P l ⊆+ filter P k.
Proof.
  induction 1 as [|x l k _ IH|x y l|x l k _ IH|l k m _ IH1 _ IH2].
  - done.
  - rewrite !filter_cons. case_decide; [by constructor|done].
  - rewrite !filter_cons. repeat case_decide; try done. apply submseteq_swap.
  - rewrite filter_cons. case_decide; [by constructor|done].
  - by etrans.
Qed.

Lemma StronglySorted_lookup_lt {A} (R : relation A) (l : list A) i j a b :
  StronglySorted R l → (i < j)%nat → l !! i = Some a → l !! j = Some b → R a b.
Proof.
  intros Hs. revert i j. induction Hs as [|x l _ IH Hall]; intros i j Hij Ha Hb; [done|].
  destruct i as [|i], j as [|j]; simplify_eq/=; try lia.
  - rewrite Forall_forall in Hall. apply Hall. by eapply list_elem_of_lookup_2.
  - apply (IH i j); [lia|done..].
Qed.

(** ** The sliding window on a sorted slice *)

Section sliding_window.
Variable dflt : Time.
Variable txs : list Transaction.
Variable period : VelocityPeriod.
Hypothesis txs_sorted : StronglySorted byCreatedAt txs.

Let d := PeriodDuration period.
Let k := Threshold period.
Let T := createdAt dflt txs.
Let ts := CreatedAt <$> txs.

Lemma createdAt_lookup i :
  (i < length txs)%nat → ts !! i = Some (T i).
Proof.
  intros Hi. unfold ts, T, createdAt.
  rewrite list_lookup_fmap.
  destruct (lookup_lt_is_Some_2 txs i Hi) as [tx ->]. done.
Qed.

Lemma createdAt_sorted i j :
  (i ≤ j)%nat → (j < length txs)%nat → T i ≤ T j.
Proof.
  intros Hij Hj. unfold T, createdAt.
  destruct (lookup_lt_is_Some_2 txs j Hj) as [b Hb].
  destruct (lookup_lt_is_Some_2 txs i ltac:(lia)) as [a Ha].
  rewrite Ha, Hb. simpl.
  destruct (decide (i = j)) as [->|Hne]; [naive_solver lia|].
  apply byCreatedAt_le.
  by apply (StronglySorted_lookup_lt byCreatedAt txs i j a b txs_sorted); [lia|..].
Qed.

(** The inner loop stops at the first index of the window that ends at
    [right]. *)
Lemma advanceLeft_spec right fuel left :
  (left ≤ S right)%nat → (S right - left ≤ fuel)%nat →
  let left' := advanceLeft dflt txs d right fuel left in
  (left ≤ left' ≤ S right)%nat
  ∧ (∀ i, (left ≤ i < left')%nat → d < Sub (T right) (T i))
  ∧ ((left' ≤ right)%nat → Sub (T right) (T left') ≤ d).
Proof.
  revert left. induction fuel as [|fuel IH]; intros left Hl Hf; simpl.
  - split; [lia|]. split; intros; lia.
  - case_bool_decide as Hle; simpl.
    + fold T. destruct (Z.ltb_spec d (Sub (T right) (T left))) as [Hlt|Hge].
      * destruct (IH (S left)) as (Hb & Hout & Hin); [lia..|].
        split; [lia|]. split; [|done].
        intros i Hi. destruct (decide (i = left)) as [->|]; [done|].
        apply Hout. lia.
      * split; [lia|]. split; [intros; lia|done].
    + split; [lia|]. split; intros; lia.
Qed.

Let leftInv := leftInv dflt txs d.

(** The window [left' .. right] found by the inner loop holds exactly the
    transactions up to [right] that are within the span. *)
Lemma window_prefix_count right left' :
  (right < length txs)%nat → (left' ≤ S right)%nat →
  (∀ i, (i < left')%nat → d < Sub (T right) (T i)) →
  ((left' ≤ right)%nat → Sub (T right) (T left') ≤ d) →
  length (filter (inWindow d (T right)) (take (S right) ts)) = (S right - left')%nat.
Proof.
  intros Hr Hl Hout Hin.
  rewrite <- (take_drop left' (take (S right) ts)), filter_app.
  rewrite filter_none, filter_all; simpl.
  - rewrite length_drop, length_take. unfold ts. rewrite length_fmap. lia.
  - apply Forall_lookup. intros i u. rewrite lookup_drop.
    intros Hu. pose proof (lookup_lt_Some _ _ _ Hu) as Hlen.
    rewrite length_take in Hlen. unfold ts in Hlen. rewrite length_fmap in Hlen.
    rewrite lookup_take_lt in Hu by lia.
    rewrite createdAt_lookup in Hu by lia. simplify_eq.
    split; [apply createdAt_sorted; lia|].
    etrans; [|apply Hin; lia].
    apply Sub_mono_r, createdAt_sorted; lia.
  - apply Forall_lookup. intros i u Hu.
    pose proof (lookup_lt_Some _ _ _ Hu) as Hlen.
    rewrite !length_take in Hlen.
    rewrite !lookup_take_lt in Hu by lia.
    rewrite createdAt_lookup in Hu by lia. simplify_eq.
    intros [_ ?]. specialize (Hout i). lia.
Qed.

(** Counting over the whole slice can only add to the prefix count. *)
Lemma prefix_count_le right :
  (length (filter (inWindow d (T right)) (take (S right) ts))
   ≤ windowCount d ts (T right))%nat.
Proof.
  unfold windowCount.
  rewrite <- (take_drop (S right) ts) at 2. rewrite filter_app, length_app. lia.
Qed.

(** At the last index that carries a timestamp the two counts agree. *)
Lemma prefix_count_last right :
  (right < length txs)%nat →
  (∀ j, (right < j < length txs)%nat → T right < T j) →
  windowCount d ts (T right)
  = length (filter (inWindow d (T right)) (take (S right) ts)).
Proof.
  intros Hr Hlast. unfold windowCount.
  rewrite <- (take_drop (S right) ts) at 1. rewrite filter_app, length_app.
  rewrite (filter_none _ (drop _ _)); [simpl; lia|].
  apply Forall_lookup. intros i u. rewrite lookup_drop. intros Hu.
  pose proof (lookup_lt_Some _ _ _ Hu) as Hlen.
  unfold ts in Hlen. rewrite length_fmap in Hlen.
  rewrite createdAt_lookup in Hu by lia. simplify_eq.
  intros [? _]. specialize (Hlast (S right + i)%nat). lia.
Qed.

Lemma leftInv_next right left' :
  (left' ≤ S right)%nat →
  (∀ i, (i < left')%nat → d < Sub (T right) (T i)) →
  leftInv (S right) left'.
Proof.
  intros Hl Hout. split; [done|]. intros i Hi Hr.
  eapply Z.lt_le_trans; [by apply Hout|].
  apply Sub_mono_l, createdAt_sorted; lia.
Qed.

Lemma advanceLeft_window right left :
  leftInv right left → (right < length txs)%nat →
  let left' := advanceLeft dflt txs d right (S right - left) left in
  (left' ≤ S right)%nat
  ∧ (∀ i, (i < left')%nat → d < Sub (T right) (T i))
  ∧ length (filter (inWindow d (T right)) (take (S right) ts)) = (S right - left')%nat.
Proof.
  intros [Hl Hout] Hr left'.
  destruct (advanceLeft_spec right (S right - left) left) as (Hb & Hout' & Hin);
    [lia..|].
  fold left' in Hb, Hout', Hin.
  assert (∀ i, (i < left')%nat → d < Sub (T right) (T i)) as Hall.
  { intros i Hi. destruct (decide (i < left)%nat); [by apply Hout|].
    apply Hout'. lia. }
  split; [lia|]. split; [done|].
  apply window_prefix_count; [done|lia|done|done].
Qed.

(** A [true] of the outer loop comes from a window that is too dense. *)
Lemma windowLoop_true todo right left :
  leftInv right left → (right + todo = length txs)%nat →
  windowLoop dflt txs period todo right left = true →
  denseWindow d k ts.
Proof.
  revert right left. induction todo as [|todo IH]; intros right left Hinv Hlen; [done|].
  simpl. fold d k.
  destruct (advanceLeft_window right left Hinv) as (Hl & Hout & Hcount); [lia|].
  set (left' := advanceLeft dflt txs d right (S right - left) left) in *.
  destruct (Z.ltb_spec k (Z.of_nat right - Z.of_nat left' + 1)) as [Hlt|Hge].
  - intros _. apply Exists_exists. exists (T right). split.
    + eapply list_elem_of_lookup_2, createdAt_lookup. lia.
    + pose proof (prefix_count_le right). lia.
  - apply IH; [by apply leftInv_next|lia].
Qed.

(** A [false] of the outer loop bounds every window it has visited. *)
Lemma windowLoop_false todo right left :
  leftInv right left → (right + todo = length txs)%nat →
  windowLoop dflt txs period todo right left = false →
  ∀ r, (right ≤ r < length txs)%nat →
    Z.of_nat (length (filter (inWindow d (T r)) (take (S r) ts))) ≤ k.
Proof.
  revert right left. induction todo as [|todo IH]; intros right left Hinv Hlen; [lia|].
  simpl. fold d k.
  destruct (advanceLeft_window right left Hinv) as (Hl & Hout & Hcount); [lia|].
  set (left' := advanceLeft dflt txs d right (S right - left) left) in *.
  destruct (Z.ltb_spec k (Z.of_nat right - Z.of_nat left' + 1)) as [Hlt|Hge]; [done|].
  intros Hloop r Hr. destruct (decide (r = right)) as [->|Hne].
  - rewrite Hcount. lia.
  - eapply IH; [by apply leftInv_next| |done|]; lia.
Qed.

(** Every timestamp has a last index. *)
Lemma last_index t :
  t ∈ ts → ∃ r, (r < length txs)%nat ∧ T r = t
                ∧ ∀ j, (r < j < length txs)%nat → T r < T j.
Proof.
  intros Ht.
  assert (∃ r, (r < length txs)%nat ∧ T r = t) as Hex.
  { apply list_elem_of_lookup_1 in Ht as [r Hr].
    pose proof (lookup_lt_Some _ _ _ Hr) as Hlen.
    unfold ts in Hlen. rewrite length_fmap in Hlen.
    rewrite createdAt_lookup in Hr by done. exists r. naive_solver. }
  assert (∀ n r, (length txs - r ≤ n)%nat → (r < length txs)%nat → T r = t →
            ∃ r', (r' < length txs)%nat ∧ T r' = t
                  ∧ ∀ j, (r' < j < length txs)%nat → T r' < T j) as Hmax.
  { induction n as [|n IH]; intros r Hn Hr Heq; [lia|].
    destruct (decide (S r < length txs)%nat) as [Hs|Hs].
    - destruct (decide (T (S r) = t)) as [Heq'|Hne].
      + apply (IH (S r)); [lia|done|done].
      + exists r. split; [done|]. split; [done|]. intros j Hj.
        pose proof (createdAt_sorted r (S r) ltac:(lia) Hs).
        pose proof (createdAt_sorted (S r) j ltac:(lia) ltac:(lia)). lia.
    - exists r. split; [done|]. split; [done|]. intros j Hj. lia. }
  destruct Hex as (r & Hr & Heq). by apply (Hmax (length txs) r); [lia|..].
Qed.

(** The rule on a sorted slice: it reports a violation exactly when some
    window of span [d] holds more than [k] of the timestamps. *)
Lemma hasViolatedVelocityWith_sorted :
  hasViolatedVelocityWith dflt txs period = true ↔ denseWindow d k ts.
Proof.
  unfold hasViolatedVelocityWith. split.
  - apply windowLoop_true; [|lia]. split; [lia|]. intros; lia.
  - intros Hdense.
    destruct (windowLoop dflt txs period (length txs) 0 0) eqn:Hloop; [done|].
    exfalso. apply Exists_exists in Hdense as (t & Ht & Hk).
    destruct (last_index t Ht) as (r & Hr & <- & Hlast).
    rewrite (prefix_count_last r Hr Hlast) in Hk.
    pose proof (windowLoop_false _ 0%nat 0%nat ltac:(split; intros; lia) eq_refl Hloop r
                  ltac:(lia)).
    lia.
Qed.

End sliding_window.

(** ** Dense windows depend on the timestamps as a multiset *)

Lemma windowCount_perm d ts ts' t :
  ts ≡ₚ ts' → windowCount d ts t = windowCount d ts' t.
Proof. intros Hp. unfold windowCount. by rewrite Hp. Qed.

Lemma windowCount_mono d ts ts' t :
  ts ⊆+ ts' → (windowCount d ts t ≤ windowCount d ts' t)%nat.
Proof.
  intros Hsub. unfold windowCount.
  by apply submseteq_length, filter_submseteq_mono.
Qed.

Lemma denseWindow_mono d k ts ts' :
  ts ⊆+ ts' → denseWindow d k ts → denseWindow d k ts'.
Proof.
  intros Hsub. unfold denseWindow. rewrite !Exists_exists.
  intros (t & Ht & Hk). exists t. split.
  - by eapply elem_of_submseteq.
  - pose proof (windowCount_mono d ts ts' t Hsub). lia.
Qed.

Lemma denseWindow_perm d k ts ts' :
  ts ≡ₚ ts' → denseWindow d k ts ↔ denseWindow d k ts'.
Proof.
  intros Hp. split; apply denseWindow_mono; by rewrite Hp.
Qed.

(** ** The sort *)

Global Instance byCreatedAt_trans : Transitive byCreatedAt.
Proof. intros a b c. rewrite !byCreatedAt_le. lia. Qed.

Global Instance byCreatedAt_total : Total byCreatedAt.
Proof. intros a b. rewrite !byCreatedAt_le. lia. Qed.

Lemma sortSlice_sorted txs : StronglySorted byCreatedAt (sortSlice txs).
Proof. apply StronglySorted_merge_sort; apply _. Qed.

Lemma sortSlice_perm txs : sortSlice txs ≡ₚ txs.
Proof. apply merge_sort_Permutation. Qed.

(** ** The rule on any slice, once sorted *)

(** No read of the two loops falls outside the slice: the value returned
    for a missing index never matters. *)
Lemma createdAt_in_range dflt dflt' txs i :
  (i < length txs)%nat → createdAt dflt txs i = createdAt dflt' txs i.
Proof.
  intros Hi. unfold createdAt.
  by destruct (lookup_lt_is_Some_2 txs i Hi) as [tx ->].
Qed.

Lemma advanceLeft_reads_in_range dflt dflt' txs d right fuel left :
  (right < length txs)%nat →
  advanceLeft dflt txs d right fuel left = advanceLeft dflt' txs d right fuel left.
Proof.
  intros Hr. revert left. induction fuel as [|fuel IH]; intros left; [done|].
  simpl. case_bool_decide as Hle; simpl; [|done].
  rewrite (createdAt_in_range dflt dflt' txs right) by done.
  rewrite (createdAt_in_range dflt dflt' txs left) by lia.
  by rewrite IH.
Qed.

Lemma hasViolatedVelocity_reads_in_range dflt dflt' txs period :
  hasViolatedVelocityWith dflt txs period = hasViolatedVelocityWith dflt' txs period.
Proof.
  unfold hasViolatedVelocityWith.
  assert (∀ todo right left, (right + todo = length txs)%nat →
            windowLoop dflt txs period todo right left
            = windowLoop dflt' txs period todo right left) as H.
  { induction todo as [|todo IH]; intros right left Hlen; [done|].
    simpl. rewrite (advanceLeft_reads_in_range dflt dflt') by lia.
    rewrite IH by lia. done. }
  by apply H.
Qed.

Lemma hasViolatedVelocity_sorted txs period :
  StronglySorted byCreatedAt txs →
  hasViolatedVelocity txs period = true
  ↔ denseWindow (PeriodDuration period) (Threshold period) (CreatedAt <$> txs).
Proof. intros Hs. by apply hasViolatedVelocityWith_sorted. Qed.

(** Sorting first, the rule decides whether the user's timestamps have a
    dense window. *)
Lemma hasViolatedVelocity_sortSlice txs period :
  hasViolatedVelocity (sortSlice txs) period = true
  ↔ denseWindow (PeriodDuration period) (Threshold period) (CreatedAt <$> txs).
Proof.
  rewrite hasViolatedVelocity_sorted by apply sortSlice_sorted.
  apply denseWindow_perm. by rewrite sortSlice_perm.
Qed.

(** [sort.Slice] is not stable, and any sorted arrangement of the slice
    gives the verdict of [sortSlice]. *)
Lemma verdict_any_sorted_order txs txs' period :
  txs' ≡ₚ txs → StronglySorted byCreatedAt txs' →
  hasViolatedVelocity txs' period = hasViolatedVelocity (sortSlice txs) period.
Proof.
  intros Hp Hs. apply eq_true_iff_eq.
  rewrite hasViolatedVelocity_sorted, hasViolatedVelocity_sortSlice by done.
  apply denseWindow_perm. by rewrite Hp.
Qed.

Lemma hasViolatedVelocityPeriods_true periods txs :
  hasViolatedVelocityPeriods periods txs = true
  ↔ ∃ period, period ∈ periods ∧ hasViolatedVelocity txs period = true.
Proof.
  induction periods as [|p periods IH]; simpl.
  - split; [done|]. intros (p & Hp & _). by apply elem_of_nil in Hp.
  - destruct (hasViolatedVelocity txs p) eqn:Hv.
    + split; [|done]. intros _. exists p. split; [left|done].
    + rewrite IH. split.
      * intros (q & Hq & Hvq). exists q. split; [by right|done].
      * intros (q & Hq & Hvq). apply elem_of_cons in Hq as [->|Hq]; [congruence|].
        by exists q.
Qed.

Lemma periods_sortSlice periods txs :
  hasViolatedVelocityPeriods periods (sortSlice txs) = true
  ↔ violatesSome periods (CreatedAt <$> txs).
Proof.
  rewrite hasViolatedVelocityPeriods_true. unfold violatesSome.
  by setoid_rewrite hasViolatedVelocity_sortSlice.
Qed.

(** ** Partitioning *)

Lemma partition_lookup_foldl m txs u :
  foldl appendTx m txs !! u
  = match m !! u, filter (λ tx, UserID tx = u) txs with
    | None, [] => None
    | o, l => Some (default [] o ++ l)
    end.
Proof.
  revert m. induction txs as [|tx txs IH]; intros m; simpl.
  - destruct (m !! u); simpl; [by rewrite app_nil_r|done].
  - rewrite IH. unfold appendTx. rewrite filter_cons.
    destruct (decide (UserID tx = u)) as [->|Hne].
    + rewrite lookup_insert_eq. simpl. rewrite <- app_assoc. simpl.
      by destruct (m !! u).
    + rewrite lookup_insert_ne by done. done.
Qed.

(** Each user of the batch gets the sub-sequence of their transactions, in
    input order; nobody else gets an entry. *)
Lemma partition_lookup txs u :
  partition txs !! u
  = match filter (λ tx, UserID tx = u) txs with
    | [] => None
    | l => Some l
    end.
Proof.
  unfold partition. rewrite partition_lookup_foldl, lookup_empty. done.
Qed.

Lemma partition_lookup_Some txs u l :
  partition txs !! u = Some l ↔ l = filter (λ tx, UserID tx = u) txs ∧ l ≠ [].
Proof.
  rewrite partition_lookup. destruct (filter _ txs); naive_solver.
Qed.

(** ** The sequential evaluator *)

Lemma flagUsersIn_foldl periods acc order u :
  u ∈ foldl (flagUser periods) acc order
  ↔ u ∈ acc ∨ ∃ txs, (u, txs) ∈ order
                     ∧ hasViolatedVelocityPeriods periods (sortSlice txs) = true.
Proof.
  revert acc. induction order as [|[u' txs'] order IH]; intros acc; simpl.
  - split; [by left|]. intros [?|(txs & Hin & _)]; [done|]. by apply elem_of_nil in Hin.
  - rewrite IH. unfold flagUser. simpl.
    destruct (hasViolatedVelocityPeriods periods (sortSlice txs')) eqn:Hv.
    + rewrite elem_of_union, elem_of_singleton. split.
      * intros [[->|?]|(txs & Hin & Hv')]; [right|by left|right].
        -- exists txs'. split; [left|done].
        -- exists txs. split; [by right|done].
      * intros [?|(txs & Hin & Hv')]; [by left; right|].
        apply elem_of_cons in Hin as [[= -> ->]|Hin]; [by left; left|].
        right. by exists txs.
    + split.
      * intros [?|(txs & Hin & Hv')]; [by left|]. right. exists txs. split; [by right|done].
      * intros [?|(txs & Hin & Hv')]; [by left|].
        apply elem_of_cons in Hin as [[= -> ->]|Hin]; [congruence|].
        right. by exists txs.
Qed.

Lemma flagUsersIn_elem periods order u :
  u ∈ flagUsersIn periods order
  ↔ ∃ txs, (u, txs) ∈ order
           ∧ hasViolatedVelocityPeriods periods (sortSlice txs) = true.
Proof.
  unfold flagUsersIn. rewrite flagUsersIn_foldl. set_solver.
Qed.

(** The order in which the map is visited does not show in the set. *)
Lemma flagUsersIn_perm periods order order' :
  order ≡ₚ order' → flagUsersIn periods order = flagUsersIn periods order'.
Proof.
  intros Hp. apply set_eq. intros u. rewrite !flagUsersIn_elem.
  by setoid_rewrite Hp.
Qed.

(** A user is flagged exactly when, for one of the periods, the user's
    timestamps have a dense window. *)
Lemma flagged_iff periods order txs u :
  iterationOrder (partition txs) order →
  u ∈ flagUsersIn periods order ↔ violatesSome periods (timestampsOf u txs).
Proof.
  intros Hord. rewrite flagUsersIn_elem. unfold iterationOrder in Hord.
  unfold timestampsOf. split.
  - intros (l & Hin & Hv). rewrite Hord in Hin.
    apply elem_of_map_to_list, partition_lookup_Some in Hin as [-> _].
    by apply periods_sortSlice.
  - intros Hv. exists (filter (λ tx, UserID tx = u) txs). split.
    + rewrite Hord. apply elem_of_map_to_list, partition_lookup_Some.
      split; [done|]. intros Hnil. rewrite Hnil in Hv. destruct Hv as (p & _ & Hd).
      unfold denseWindow in Hd. by apply Exists_nil in Hd.
    + by apply periods_sortSlice.
Qed.

Lemma Process_elem v c txs u :
  u ∈ VelocityProcessor.Process v c txs
  ↔ violatesSome (VelocityProcessor.Periods v) (timestampsOf u txs).
Proof.
  unfold VelocityProcessor.Process, VelocityProcessor.ProcessIn.
  apply flagged_iff. by unfold iterationOrder.
Qed.

(** ** The pool: bookkeeping lemmas *)

Lemma flagUser_union periods acc entry :
  flagUser periods acc entry = flagUser periods ∅ entry ∪ acc.
Proof. unfold flagUser. case_match; set_solver. Qed.

Lemma flagUsersIn_foldl_union periods acc order :
  foldl (flagUser periods) acc order = acc ∪ flagUsersIn periods order.
Proof.
  apply set_eq. intros u. unfold flagUsersIn.
  rewrite elem_of_union, !flagUsersIn_foldl. set_solver.
Qed.

Lemma flagUsersIn_cons periods entry order :
  flagUsersIn periods (entry :: order)
  = flagUser periods ∅ entry ∪ flagUsersIn periods order.
Proof. unfold flagUsersIn at 1. simpl. by rewrite flagUsersIn_foldl_union. Qed.

Lemma flagUsersIn_app periods order order' :
  flagUsersIn periods (order ++ order')
  = flagUsersIn periods order ∪ flagUsersIn periods order'.
Proof.
  unfold flagUsersIn at 1. rewrite foldl_app.
  by rewrite flagUsersIn_foldl_union.
Qed.

Lemma flagUsersIn_nil periods : flagUsersIn periods [] = ∅.
Proof. done. Qed.

Lemma collect_union flagged result :
  collect flagged result = collect ∅ result ∪ flagged.
Proof. unfold collect. case_match; set_solver. Qed.

Lemma collect_processUser periods userID txs :
  collect ∅ (processUser periods userID txs) = flagUser periods ∅ (userID, txs).
Proof. done. Qed.

(** Replacing the worker at index [i]: the others' contribution [R] stays. *)
Lemma workerFlags_split periods ws i w :
  ws !! i = Some w →
  ∃ R : gset UUID,
    ⋃ (workerFlags periods <$> ws) = workerFlags periods w ∪ R
    ∧ ∀ w', ⋃ (workerFlags periods <$> <[i:=w']> ws) = workerFlags periods w' ∪ R.
Proof.
  revert i. induction ws as [|w0 ws IH]; intros i Hi; [done|].
  destruct i as [|i]; simplify_eq/=.
  - by eexists.
  - destruct (IH i Hi) as (R & HR & HR').
    exists (workerFlags periods w0 ∪ R). split.
    + rewrite HR. set_solver.
    + intros w'. rewrite HR'. set_solver.
Qed.

Lemma sum_split (g : Worker → nat) ws i w :
  ws !! i = Some w →
  ∃ m, sum_list (g <$> ws) = (g w + m)%nat
       ∧ ∀ w', sum_list (g <$> <[i:=w']> ws) = (g w' + m)%nat.
Proof.
  revert i. induction ws as [|w0 ws IH]; intros i Hi; [done|].
  destruct i as [|i]; simplify_eq/=.
  - by eexists.
  - destruct (IH i Hi) as (m & Hm & Hm').
    exists (g w0 + m)%nat. split; [lia|]. intros w'. rewrite Hm'. lia.
Qed.

Lemma allExited_true ws :
  allExited ws = true ↔ ∀ i w, ws !! i = Some w → w = Exited.
Proof.
  induction ws as [|w0 ws IH]; simpl.
  - split; [|done]. intros _ i w Hw. by rewrite lookup_nil in Hw.
  - rewrite andb_true_iff, IH. split.
    + intros [Hw0 H] [|i] w Hw; simplify_eq/=; [by destruct w|by eapply H].
    + intros H. split.
      * by rewrite (H 0%nat w0 eq_refl).
      * intros i w Hw. by apply (H (S i)).
Qed.

Lemma allExited_false ws :
  allExited ws = false → ∃ i w, ws !! i = Some w ∧ w ≠ Exited.
Proof.
  induction ws as [|w ws IH]; [done|]. simpl.
  destruct w; simpl; try (intros _; by eexists 0%nat, _).
  intros (i & w & Hw & Hne)%IH. by exists (S i), w.
Qed.

Lemma Exited_insert (ws : list Worker) i w :
  Exited ∈ <[i:=w]> ws → w = Exited ∨ Exited ∈ ws.
Proof.
  intros (j & Hj)%list_elem_of_lookup_1.
  destruct (decide (i = j)) as [->|Hne].
  - pose proof (lookup_lt_Some _ _ _ Hj) as Hlen. rewrite length_insert in Hlen.
    rewrite list_lookup_insert_eq in Hj by done. left. congruence.
  - rewrite list_lookup_insert_ne in Hj by done. right.
    by eapply list_elem_of_lookup_2.
Qed.


(** ** The pool: the invariant holds along every run *)

Lemma start_inv periods c order workerCount :
  poolInv periods (flagUsersIn periods order) c (Z.to_nat workerCount) (length order)
    (start c order workerCount).
Proof.
  assert (∀ n, ⋃ (workerFlags periods <$> replicate n Receiving) = (∅ : gset UUID)) as HW.
  { intros n. rewrite fmap_replicate. simpl.
    induction n as [|n IH]; [done|]. simpl. rewrite IH. set_solver. }
  assert (∀ n, sum_list (busy <$> replicate n Receiving) = 0%nat) as HB.
  { intros n. rewrite fmap_replicate, sum_list_replicate. simpl. lia. }
  constructor; unfold accounted, inFlight; simpl; rewrite ?HW, ?HB.
  - set_solver.
  - intros _. set_solver.
  - done.
  - intros [? _]%elem_of_replicate. done.
  - done.
  - done.
  - by rewrite length_replicate.
  - simpl. lia.
  - done.
Qed.

(** The preservation proof treats one action at a time; the tactics below
    only name the steps that repeat. *)
Ltac split_worker periods Hsub Heq Hfl :=
  match goal with
  | H : ?ws !! ?i = Some ?w |- _ =>
      let R := fresh "R" in let HR := fresh "HR" in let HR' := fresh "HR'" in
      let m := fresh "m" in let Hm := fresh "Hm" in let Hm' := fresh "Hm'" in
      destruct (workerFlags_split periods ws i w H) as (R & HR & HR');
      destruct (sum_split busy ws i w H) as (m & Hm & Hm');
      rewrite HR in Hsub, Heq; rewrite Hm in Hfl;
      clear HR Hm
  end.

Ltac use_split :=
  repeat match goal with
         | H : ∀ w', ⋃ (workerFlags _ <$> <[_:=w']> _) = _ |- _ => rewrite !H; clear H
         | H : ∀ w', sum_list (busy <$> <[_:=w']> _) = _ |- _ => rewrite !H; clear H
         end.

Ltac abstract_sets :=
  repeat match goal with
         | |- context [flagUsersIn ?p ?l] =>
             let X := fresh "X" in set (X := flagUsersIn p l) in *; clearbody X
         | |- context [flagUser ?p ?a ?e] =>
             let X := fresh "X" in set (X := flagUser p a e) in *; clearbody X
         | |- context [collect ?a ?r] =>
             let X := fresh "X" in set (X := collect a r) in *; clearbody X
         | |- context [⋃ ?l] =>
             let X := fresh "X" in set (X := ⋃ l) in *; clearbody X
         end.

Ltac pool_proj :=
  unfold withWorker;
  cbn [ctx pending jobsClosed jobsQ workers resultsQ resultsClosed flaggedUsers
       returned workerFlags busy].

Ltac sets_finish Hsub Heq :=
  try (by intros [=]);
  unfold accounted; pool_proj; use_split; pool_proj;
  rewrite ?fmap_app, ?fmap_cons, ?fmap_nil, ?union_list_app_L, ?union_list_cons,
    ?union_list_nil, ?flagUsersIn_app;
  rewrite ?flagUsersIn_cons, ?flagUsersIn_nil;
  repeat match goal with
         | |- context [collect ?f ?r] =>
             lazymatch f with ∅ => fail | _ => rewrite (collect_union f r) end
         end;
  unfold entryOf in *; cbn [JobUserID Transactions] in *;
  rewrite ?collect_processUser;
  let H := fresh in
  try (intros H; specialize (Heq H)); clear -Hsub Heq;
  abstract_sets; set_solver.

Ltac control_finish :=
  unfold inFlight; pool_proj; use_split; pool_proj;
  rewrite ?length_app, ?length_insert; simpl;
  first
    [ done
    | lia
    | congruence
    | match goal with
      | Hcl : ?rc = true → allExited ?ws = true, Hw : ?ws !! ?i = Some ?w
        |- ?rc = true → _ =>
          let Hrc := fresh in
          intros Hrc; specialize (Hcl Hrc); rewrite allExited_true in Hcl;
          specialize (Hcl i w Hw); discriminate
      end
    | match goal with
      | |- Exited ∈ <[_:=_]> _ → _ =>
          let H := fresh in
          intros [H|H]%Exited_insert; [try discriminate|]; naive_solver
      end
    | match goal with
      | H : negb _ && allExited _ = true |- _ =>
          apply andb_true_iff in H as [? ?]; done
      end
    | naive_solver ].

Lemma fire_inv cfg periods target c0 n total a s s' :
  poolInv periods target c0 n total s →
  fire cfg periods a s = Next s' →
  poolInv periods target c0 n total s'.
Proof.
  intros [Hsub Heq Hcl Hex Hjc Hret Hw Hfl Hctx] Hfire.
  destruct s as [c p jc q ws rq rc f ret].
  unfold accounted, inFlight in *; simpl in *.
  destruct (isDone c) eqn:Hdone.
  all: destruct a; simpl in Hfire; rewrite ?Hdone in Hfire;
    repeat case_match; simplify_eq.
  all: try match goal with
           | H : _ && false = true |- _ => by rewrite andb_false_r in H
           end.
  all: try split_worker periods Hsub Heq Hfl.
  all: cbn [workerFlags busy length] in Hsub, Heq, Hfl;
    rewrite ?fmap_cons, ?fmap_nil, ?union_list_cons, ?flagUsersIn_cons,
      ?flagUsersIn_nil in Hsub, Heq.
  all: constructor; pool_proj; rewrite ?Hdone;
    [ sets_finish Hsub Heq | sets_finish Hsub Heq | control_finish.. ].
Qed.

Lemma run_inv cfg periods target c0 n total s s' :
  poolInv periods target c0 n total s →
  rtc (step cfg periods) s s' →
  poolInv periods target c0 n total s'.
Proof.
  intros Hinv Hrun. induction Hrun as [|s1 s2 s3 [a Ha] _ IH]; [done|].
  apply IH. by eapply fire_inv.
Qed.

(** Every state of a run of [Process] satisfies the invariant. *)
Lemma reachable_inv cfg periods c order workerCount s :
  rtc (step cfg periods) (start c order workerCount) s →
  poolInv periods (flagUsersIn periods order) c (Z.to_nat workerCount) (length order) s.
Proof. apply run_inv, start_inv. Qed.

(** ** The pool: every schedule is finite *)

Lemma fire_decreases cfg periods a s s' :
  fire cfg periods a s = Next s' → (stepsLeft s' < stepsLeft s)%nat.
Proof.
  intros Hfire. destruct s as [c p jc q ws rq rc f ret].
  destruct a; simpl in Hfire; repeat case_match; simplify_eq;
    try match goal with
        | H : ?ws !! ?i = Some ?w |- _ =>
            destruct (sum_split workerWeight ws i w H) as (m & Hm & Hm')
        end;
    unfold stepsLeft, withWorker; simpl in *;
    rewrite ?Hm', ?Hm, ?length_app; simpl; try lia.
  all: try match goal with
           | H : negb _ && _ = true |- _ =>
               apply andb_true_iff in H as [[= ->]%negb_true_iff _]; lia
           end.
Qed.


(** ** The pool: no schedule gets stuck before [Process] returns *)

Lemma progress cfg periods target c0 n total s :
  poolInv periods target c0 n total s → roomy cfg total →
  returned s = false →
  ∃ a s', fire cfg periods a s = Next s' ∧ ctx s' = ctx s.
Proof.
  intros [_ _ _ _ _ _ _ Hfl _] Hroom Hret.
  destruct s as [c p jc q ws rq rc f ret]. unfold inFlight in Hfl. simpl in *. subst ret.
  destruct rq as [|r rq]; [|by exists Collect; eexists].
  destruct rc; [by exists Return; eexists|].
  destruct (allExited ws) eqn:Hall.
  { exists CloseResults. simpl. rewrite Hall. by eexists. }
  apply allExited_false in Hall as (i & w & Hw & Hne).
  destruct (sum_split busy ws i w Hw) as (m & Hm & _). rewrite Hm in Hfl.
  destruct w as [|job|result|]; [| | |done].
  - destruct q as [|job q].
    + destruct jc.
      { exists (WorkerDrained i). simpl. rewrite Hw. by eexists. }
      destruct p as [|[userID txs] p]; [by exists ProducerClose; eexists|].
      exists ProducerSend. simpl in *.
      destruct Hroom as [Hj _]; [lia|].
      rewrite bool_decide_eq_true_2 by done. by eexists.
    + exists (WorkerReceive i). simpl. rewrite Hw. by eexists.
  - exists (WorkerCheck i). simpl. rewrite Hw. destruct (isDone c); by eexists.
  - exists (WorkerSend i). simpl in *. rewrite Hw.
    destruct Hroom as [_ Hr]; [lia|].
    rewrite bool_decide_eq_true_2 by done. by eexists.
Qed.

(** From any state of a run, some schedule makes [Process] return. *)
Lemma eventually_returns cfg periods target c0 n total s :
  poolInv periods target c0 n total s → roomy cfg total →
  ∃ s', rtc (step cfg periods) s s' ∧ returned s' = true ∧ ctx s' = ctx s.
Proof.
  intros Hinv Hroom.
  remember (stepsLeft s) as k eqn:Hk. revert s Hinv Hk.
  induction (lt_wf k) as [k _ IH]; intros s Hinv ->.
  destruct (returned s) eqn:Hret; [by exists s|].
  destruct (progress _ _ _ _ _ _ _ Hinv Hroom Hret) as (a & s1 & Ha & Hc).
  destruct (IH (stepsLeft s1) (fire_decreases _ _ _ _ _ Ha) s1)
    as (s' & Hrun & Hret' & Hc'); [by eapply fire_inv|done|].
  exists s'. split; [|split; [done|congruence]].
  eapply rtc_l; [by exists a|done].
Qed.

(** ** The pool: what [Process] returns *)

Lemma workerFlags_allExited periods ws :
  allExited ws = true → ⋃ (workerFlags periods <$> ws) = (∅ : gset UUID).
Proof.
  induction ws as [|w ws IH]; [done|].
  intros [Hw Hws]%andb_true_iff. rewrite fmap_cons, union_list_cons, IH by done.
  by destruct w.
Qed.

(** Whatever the schedule and the cancellation, only users the sequential
    loop flags are returned. *)
Lemma returned_subset periods target c0 n total s :
  poolInv periods target c0 n total s → flaggedUsers s ⊆ target.
Proof. intros [Hsub _ _ _ _ _ _ _ _]. unfold accounted in Hsub. set_solver. Qed.

(** With at least one worker and no cancellation the returned set is the
    whole sequential verdict. *)
Lemma returned_exact periods target c0 n total s :
  poolInv periods target c0 n total s →
  (0 < n)%nat → isDone (ctx s) = false → returned s = true →
  flaggedUsers s = target.
Proof.
  intros [_ Heq Hcl Hex Hjc Hret Hw _ _] Hn Hdone Hr.
  destruct (Hret Hr) as [Hrc Hrq]. specialize (Hcl Hrc).
  assert (Exited ∈ workers s) as Hin.
  { destruct (workers s) as [|w ws] eqn:Hws; [simpl in Hw; lia|].
    rewrite allExited_true in Hcl. rewrite (Hcl 0%nat w eq_refl). left. }
  destruct (Hex Hin) as [?|[Hjcl Hq]]; [congruence|].
  destruct (Hjc Hjcl) as [?|Hp]; [congruence|].
  rewrite <- (Heq Hdone). unfold accounted.
  rewrite Hrq, Hq, Hp, workerFlags_allExited by done.
  rewrite fmap_nil, union_list_nil, flagUsersIn_nil. set_solver.
Qed.

(** Without a worker nothing is ever collected. *)
Lemma fire_no_worker cfg periods a s s' :
  workers s = [] ∧ resultsQ s = [] ∧ flaggedUsers s = ∅ →
  fire cfg periods a s = Next s' →
  workers s' = [] ∧ resultsQ s' = [] ∧ flaggedUsers s' = ∅.
Proof.
  intros (Hw & Hq & Hf) Hfire.
  destruct a; simpl in Hfire; rewrite ?Hw, ?Hq in Hfire;
    repeat case_match; simplify_eq; simpl; done.
Qed.

Lemma run_no_worker cfg periods s s' :
  workers s = [] ∧ resultsQ s = [] ∧ flaggedUsers s = ∅ →
  rtc (step cfg periods) s s' →
  flaggedUsers s' = ∅.
Proof.
  intros Hs Hrun. induction Hrun as [s|s1 s2 s3 [a Ha] _ IH]; [by destruct Hs as (_ & _ & ?)|].
  apply IH. by eapply fire_no_worker.
Qed.

(** ** The pool: no panic, no goroutine left behind *)

Lemma no_panic cfg periods target c0 n total a s :
  poolInv periods target c0 n total s → fire cfg periods a s ≠ Panics.
Proof.
  intros [_ _ Hcl _ _ _ _ _ _].
  destruct a; simpl; repeat case_match; try done.
  rewrite allExited_true in Hcl.
  match goal with H : workers s !! _ = Some _ |- _ => by specialize (Hcl eq_refl _ _ H) end.
Qed.

(** When nothing can be scheduled any more, [Process] has returned and
    every worker has; the producer has too once the context is done or
    there is a worker at all. *)
Lemma quiescent_done cfg periods target c0 n total s :
  poolInv periods target c0 n total s → roomy cfg total →
  quiescent cfg periods s →
  returned s = true
  ∧ allExited (workers s) = true
  ∧ (isDone (ctx s) = true ∨ (0 < n)%nat → jobsClosed s = true).
Proof.
  intros Hinv Hroom Hq.
  assert (returned s = true) as Hr.
  { destruct (returned s) eqn:Hr; [done|].
    destruct (progress _ _ _ _ _ _ _ Hinv Hroom Hr) as (a & s' & Ha & _).
    by destruct (Hq a s'). }
  destruct Hinv as [_ _ Hcl Hex Hjc Hret Hw _ _].
  destruct (Hret Hr) as [Hrc _]. specialize (Hcl Hrc).
  split; [done|]. split; [done|]. intros Hor.
  destruct (jobsClosed s) eqn:Hj; [done|]. exfalso.
  destruct (pending s) as [|entry rest] eqn:Hp.
  { eapply (Hq ProducerClose). simpl. by rewrite Hj, Hp. }
  destruct (isDone (ctx s)) eqn:Hdone.
  { eapply (Hq ProducerAbort). simpl. by rewrite Hj, Hp, Hdone. }
  destruct Hor as [?|Hn]; [done|].
  assert (Exited ∈ workers s) as Hin.
  { destruct (workers s) as [|w ws] eqn:Hws; [simpl in Hw; lia|].
    rewrite allExited_true in Hcl. rewrite (Hcl 0%nat w eq_refl). left. }
  destruct (Hex Hin) as [?|[? _]]; congruence.
Qed.

(** Once the context is done no worker starts [processUser]: a worker
    that stands at its send after a step stood there before it. *)
Lemma no_new_job_when_done cfg periods a s s' i result :
  isDone (ctx s) = true →
  fire cfg periods a s = Next s' →
  workers s' !! i = Some (Sending result) →
  workers s !! i = Some (Sending result).
Proof.
  intros Hdone Hfire.
  destruct a; simpl in Hfire; rewrite ?Hdone in Hfire;
    repeat case_match; simplify_eq; simpl; try done.
  all: match goal with
       | H : _ !! ?j = Some _ |- _ =>
           destruct (decide (j = i)) as [->|Hne];
           [rewrite list_lookup_insert_eq by (by eapply lookup_lt_Some); by intros [=]
           |by rewrite list_lookup_insert_ne]
       end.
Qed.

Lemma done_stable cfg periods a s s' :
  fire cfg periods a s = Next s' → isDone (ctx s) = true → isDone (ctx s') = true.
Proof.
  intros Hfire Hdone.
  destruct a; simpl in Hfire; rewrite ?Hdone in Hfire;
    repeat case_match; simplify_eq; simpl; done.
Qed.

(** ** The two concurrent evaluators against the sequential one *)

Lemma iterationOrder_length m order :
  iterationOrder m order → length order = size m.
Proof.
  unfold iterationOrder. intros ->. apply length_map_to_list.
Qed.

Lemma iterationOrder_verdict v c txs order :
  iterationOrder (partition txs) order →
  flagUsersIn (VelocityProcessor.Periods v) order = VelocityProcessor.Process v c txs.
Proof.
  intros Hord. unfold VelocityProcessor.Process, VelocityProcessor.ProcessIn.
  by apply flagUsersIn_perm.
Qed.

Lemma worker_roomy txs order :
  iterationOrder (partition txs) order →
  roomy (WorkerVelocityProcessor.config txs) (length order).
Proof.
  intros Hord Hpos. rewrite (iterationOrder_length _ _ Hord) in Hpos. by simpl.
Qed.

Lemma pipeline_roomy total : roomy ConcurrentVelocityProcessor.config total.
Proof. intros _. simpl. lia. Qed.

Section pool_results.
Variable cfg : PoolConfig.
Variable periods : list VelocityPeriod.
Variable txs : list Transaction.
Hypothesis cfg_roomy :
  ∀ order, iterationOrder (partition txs) order → roomy cfg (length order).

Let verdict : gset UUID :=
  VelocityProcessor.Process (VelocityProcessor.NewVelocityValidator periods)
    Background txs.

Lemma poolReturns_subset c wc c' F :
  poolReturns cfg periods c wc txs c' F → F ⊆ verdict.
Proof.
  intros (order & s & Hord & Hrun & _ & _ & <-).
  unfold verdict.
  rewrite <- (iterationOrder_verdict _ Background txs order Hord). simpl.
  eapply returned_subset, reachable_inv, Hrun.
Qed.

Lemma poolReturns_exact c wc c' F :
  0 < wc → isDone c' = false →
  poolReturns cfg periods c wc txs c' F → F = verdict.
Proof.
  intros Hwc Hdone (order & s & Hord & Hrun & Hret & <- & <-).
  unfold verdict.
  rewrite <- (iterationOrder_verdict _ Background txs order Hord). simpl.
  eapply returned_exact; [eapply reachable_inv, Hrun|lia|done|done].
Qed.

Lemma poolReturns_no_worker c wc c' F :
  wc ≤ 0 → poolReturns cfg periods c wc txs c' F → F = ∅.
Proof.
  intros Hwc (order & s & _ & Hrun & _ & _ & <-).
  eapply run_no_worker; [|exact Hrun]. simpl.
  replace (Z.to_nat wc) with 0%nat by lia. done.
Qed.

(** Some schedule returns, and without a [Cancel] step. *)
Lemma poolReturns_some c wc :
  ∃ F, poolReturns cfg periods c wc txs c F.
Proof.
  pose (order := map_to_list (partition txs)).
  assert (iterationOrder (partition txs) order) as Hord by (by unfold iterationOrder).
  destruct (eventually_returns cfg periods _ _ _ _ _
              (start_inv periods c order wc) (cfg_roomy order Hord))
    as (s & Hrun & Hret & Hctx).
  exists (flaggedUsers s), order, s. by repeat split.
Qed.

Lemma poolReturns_verdict c wc :
  0 < wc → isDone c = false → poolReturns cfg periods c wc txs c verdict.
Proof.
  intros Hwc Hdone. destruct (poolReturns_some c wc) as (F & HF).
  by rewrite <- (poolReturns_exact c wc c F Hwc Hdone HF).
Qed.

(** Every state of a run behaves. *)
Lemma reachable_behaves c wc order s :
  iterationOrder (partition txs) order →
  rtc (step cfg periods) (start c order wc) s →
  behaves cfg periods verdict s.
Proof.
  intros Hord Hrun.
  pose proof (reachable_inv cfg periods c order wc s Hrun) as Hinv.
  pose proof (cfg_roomy order Hord) as Hroom.
  constructor.
  - intros a. by eapply no_panic.
  - destruct (eventually_returns _ _ _ _ _ _ _ Hinv Hroom) as (s' & ? & ? & _).
    by exists s'.
  - intros a s'. apply fire_decreases.
  - intros _. unfold verdict.
    rewrite <- (iterationOrder_verdict _ Background txs order Hord). simpl.
    by eapply returned_subset.
  - intros Hdone a s' i result. by apply no_new_job_when_done.
  - intros Hq. destruct (quiescent_done _ _ _ _ _ _ _ Hinv Hroom Hq) as (? & ? & Hp).
    split; [done|]. split; [done|]. intros Hdone. apply Hp. by left.
Qed.

End pool_results.

(** ** Supporting facts for the evaluators' contract *)

Lemma timestampsOf_submseteq u txs txs' :
  txs ⊆+ txs' → timestampsOf u txs ⊆+ timestampsOf u txs'.
Proof.
  intros Hsub. unfold timestampsOf.
  by apply fmap_submseteq, filter_submseteq_mono.
Qed.

Lemma timestampsOf_perm u txs txs' :
  txs ≡ₚ txs' → timestampsOf u txs ≡ₚ timestampsOf u txs'.
Proof. intros Hp. unfold timestampsOf. by rewrite Hp. Qed.

Lemma sequential_elem periods txs u :
  u ∈ sequential periods txs ↔ violatesSome periods (timestampsOf u txs).
Proof. apply Process_elem. Qed.

Lemma sequential_perm periods txs txs' :
  txs ≡ₚ txs' → sequential periods txs = sequential periods txs'.
Proof.
  intros Hp. apply set_eq. intros u. rewrite !sequential_elem.
  unfold violatesSome.
  by setoid_rewrite (denseWindow_perm _ _ _ _ (timestampsOf_perm u txs txs' Hp)).
Qed.

Lemma sequential_no_transactions periods : sequential periods [] = ∅.
Proof.
  apply set_eq. intros u. rewrite sequential_elem. split; [|set_solver].
  intros (p & _ & Hd). unfold denseWindow in Hd. by apply Exists_nil in Hd.
Qed.

Lemma sequential_no_periods txs : sequential [] txs = ∅.
Proof.
  apply set_eq. intros u. rewrite sequential_elem. split; [|set_solver].
  intros (p & Hp & _). by apply elem_of_nil in Hp.
Qed.

Lemma workerPool_count periods wc :
  WorkerVelocityProcessor.WorkerCount
    (WorkerVelocityProcessor.NewWorkerVelocityProcessor periods wc)
  = if wc <=? 0 then 4 else wc.
Proof. done. Qed.

(** The worker pool runs at least one worker whatever count it is given. *)
Lemma workerPool_count_pos periods wc :
  0 < WorkerVelocityProcessor.WorkerCount
        (WorkerVelocityProcessor.NewWorkerVelocityProcessor periods wc).
Proof. rewrite workerPool_count. destruct (Z.leb_spec wc 0); lia. Qed.

Lemma workerPool_subset periods wc c txs c' F :
  workerPool periods wc c txs c' F → F ⊆ sequential periods txs.
Proof. apply poolReturns_subset. Qed.

Lemma pipeline_subset periods wc c txs c' F :
  pipeline periods wc c txs c' F → F ⊆ sequential periods txs.
Proof. apply poolReturns_subset. Qed.

Lemma workerPool_exact periods wc c txs c' F :
  isDone c' = false → workerPool periods wc c txs c' F → F = sequential periods txs.
Proof.
  intros Hdone. apply poolReturns_exact; [|done]. apply workerPool_count_pos.
Qed.

Lemma pipeline_exact periods wc c txs c' F :
  0 < wc → isDone c' = false →
  pipeline periods wc c txs c' F → F = sequential periods txs.
Proof. intros Hwc Hdone. by apply poolReturns_exact. Qed.

Lemma workerPool_returns periods wc c txs :
  isDone c = false → workerPool periods wc c txs c (sequential periods txs).
Proof.
  intros Hdone. apply poolReturns_verdict; [|apply workerPool_count_pos|done].
  intros order. apply worker_roomy.
Qed.

Lemma pipeline_returns periods wc c txs :
  0 < wc → isDone c = false → pipeline periods wc c txs c (sequential periods txs).
Proof.
  intros Hwc Hdone. apply poolReturns_verdict; [|done|done].
  intros order _. apply pipeline_roomy.
Qed.

Lemma runSchedule_rtc cfg periods schedule s s' :
  runSchedule cfg periods schedule s = Some s' → rtc (step cfg periods) s s'.
Proof.
  revert s. induction schedule as [|a schedule IH]; intros s; simpl.
  - by intros [= ->].
  - destruct (fire cfg periods a s) as [s1| |] eqn:Ha; [|done..].
    intros Hrun. eapply rtc_l; [by exists a|by apply IH].
Qed.


(** ** The embedding on the table of [velocity_processor_test.go] *)

(** The nine cases of [TestVelocityProcessor_Process], with [baseTime] at
    instant 0, user 1 for [userID1] and user 2 for [userID2]. *)
Example test_no_violations :
  sequential [NewVelocityPeriod week 5; NewVelocityPeriod month 20]
    [mkTx userID1 0; mkTx userID1 (Add 0 (2 * Hour)); mkTx userID2 (Add 0 (4 * Hour))]
  = ∅.
Proof. vm_compute. reflexivity. Qed.

Example test_weekly_violation :
  sequential [NewVelocityPeriod week 3; NewVelocityPeriod month 10] sortedFour
  = {[userID1]}.
Proof. vm_compute. reflexivity. Qed.

Example test_monthly_violation :
  sequential [NewVelocityPeriod week 10; NewVelocityPeriod month 3]
    [mkTx userID1 0; mkTx userID1 (Add 0 (7 * 24 * Hour));
     mkTx userID1 (Add 0 (14 * 24 * Hour)); mkTx userID1 (Add 0 (21 * 24 * Hour))]
  = {[userID1]}.
Proof. vm_compute. reflexivity. Qed.

Example test_multiple_users_one_violation :
  sequential [NewVelocityPeriod week 2] oneViolation = {[userID1]}.
Proof. vm_compute. reflexivity. Qed.

Example test_exact_threshold :
  sequential [NewVelocityPeriod week 3] exactThreshold = ∅.
Proof. vm_compute. reflexivity. Qed.

Example test_unsorted_transactions :
  sequential [NewVelocityPeriod week 3] unsortedFour = {[userID1]}.
Proof. vm_compute. reflexivity. Qed.

Example test_transactions_outside_period :
  sequential [NewVelocityPeriod week 2]
    [mkTx userID1 0; mkTx userID1 (Add 0 (1 * Hour)); mkTx userID1 (Add 0 (8 * 24 * Hour))]
  = ∅.
Proof. vm_compute. reflexivity. Qed.

Example test_empty_transactions : sequential [NewVelocityPeriod week 3] [] = ∅.
Proof. vm_compute. reflexivity. Qed.

Example test_no_periods_configured : sequential [] exactThreshold = ∅.
Proof. vm_compute. reflexivity. Qed.

(** One complete schedule of the pipeline with two workers on the
    "multiple users - one violation" batch. *)
Example pipeline_two_workers_run :
  (λ s, (returned s, flaggedUsers s, allExited (workers s), jobsClosed s))
    <$> runSchedule ConcurrentVelocityProcessor.config [NewVelocityPeriod week 2]
          [ProducerSend; WorkerReceive 0; ProducerSend; ProducerClose; WorkerCheck 0;
           WorkerReceive 1; WorkerCheck 1; WorkerSend 1; WorkerDrained 1; Collect;
           WorkerSend 0; WorkerDrained 0; CloseResults; Collect; Return]
          (start Background (map_to_list (partition oneViolation)) 2)
  = Some (true, {[userID1]}, true, true).
Proof. vm_compute. reflexivity. Qed.

(** The same batch with the worker count 0 given to
    [NewConcurrentVelocityProcessor]: no worker, the results are closed at
    once and the caller returns the empty set, from whatever point of the
    producer's loop. *)
Example pipeline_zero_workers_run :
  (λ s, (returned s, flaggedUsers s))
    <$> runSchedule ConcurrentVelocityProcessor.config [NewVelocityPeriod week 2]
          [ProducerSend; CloseResults; Return; ProducerSend; ProducerClose]
          (start Background (map_to_list (partition oneViolation))
             (ConcurrentVelocityProcessor.WorkerCount
                (ConcurrentVelocityProcessor.NewConcurrentVelocityProcessor
                   [NewVelocityPeriod week 2] 0)))
  = Some (true, ∅).
Proof. vm_compute. reflexivity. Qed.

(** A run of the worker pool that is cancelled while user 2's job is
    between the [range] and the [select] of worker 0: that job is dropped,
    the producer gives up, every goroutine ends and nothing is flagged. *)
Example workerPool_cancelled_run :
  (λ s, (returned s, flaggedUsers s, allExited (workers s), jobsClosed s))
    <$> runSchedule (WorkerVelocityProcessor.config oneViolation)
          [NewVelocityPeriod week 2]
          [ProducerSend; WorkerReceive 0; Cancel; WorkerCheck 0; ProducerAbort;
           WorkerDrained 1; WorkerDrained 2; WorkerDrained 3; CloseResults; Return]
          (start (Cancellable false) (map_to_list (partition oneViolation)) 4)
  = Some (true, ∅, true, true).
Proof. vm_compute. reflexivity. Qed.

(** ** The properties the specification states *)

(** C1.  Run with a context that is never cancelled and a positive worker
    count, the worker pool and the pipeline can only return the set the
    sequential evaluator returns, under every iteration order of the map
    and every schedule; and each of them does return it. *)
Theorem evaluators_agree periods workerCount transactions c :
  0 < workerCount → isDone c = false →
  (∀ c' flagged, isDone c' = false →
     workerPool periods workerCount c transactions c' flagged →
     flagged = sequential periods transactions)
  ∧ (∀ c' flagged, isDone c' = false →
       pipeline periods workerCount c transactions c' flagged →
       flagged = sequential periods transactions)
  ∧ workerPool periods workerCount c transactions c (sequential periods transactions)
  ∧ pipeline periods workerCount c transactions c (sequential periods transactions).
Proof.
  intros Hwc Hdone. repeat split.
  - intros c' F Hc'. by apply workerPool_exact.
  - intros c' F Hc'. by apply pipeline_exact.
  - by apply workerPool_returns.
  - by apply pipeline_returns.
Qed.

Lemma evaluators_agree_witness :
  0 < 4 ∧ isDone Background = false
  ∧ workerPool [NewVelocityPeriod week 2] 4 Background oneViolation Background
      (sequential [NewVelocityPeriod week 2] oneViolation)
  ∧ pipeline [NewVelocityPeriod week 2] 4 Background oneViolation Background
      (sequential [NewVelocityPeriod week 2] oneViolation).
Proof.
  split; [lia|]. split; [reflexivity|].
  apply (evaluators_agree [NewVelocityPeriod week 2] 4 oneViolation Background);
    [lia|reflexivity].
Defined.

(** C2.  [NewWorkerVelocityProcessor] replaces a zero or negative worker
    count by 4, and [NewConcurrentVelocityProcessor] stores it as given:
    with the count 0 the pipeline starts no worker and returns the empty
    set on a batch in which the worker pool, given the same count, flags
    user 1. *)
Theorem pipeline_keeps_nonpositive_count :
  WorkerVelocityProcessor.WorkerCount
    (WorkerVelocityProcessor.NewWorkerVelocityProcessor [NewVelocityPeriod week 2] 0) = 4
  ∧ ConcurrentVelocityProcessor.WorkerCount
      (ConcurrentVelocityProcessor.NewConcurrentVelocityProcessor
         [NewVelocityPeriod week 2] 0) = 0
  ∧ (∀ flagged,
       workerPool [NewVelocityPeriod week 2] 0 Background oneViolation Background flagged →
       flagged = {[userID1]})
  ∧ workerPool [NewVelocityPeriod week 2] 0 Background oneViolation Background {[userID1]}
  ∧ (∀ flagged,
       pipeline [NewVelocityPeriod week 2] 0 Background oneViolation Background flagged →
       flagged = ∅)
  ∧ pipeline [NewVelocityPeriod week 2] 0 Background oneViolation Background ∅.
Proof.
  assert (sequential [NewVelocityPeriod week 2] oneViolation = {[userID1]}) as Hseq
    by (vm_compute; reflexivity).
  split; [done|]. split; [done|]. split; [|split; [|split]].
  - intros F HF. rewrite <- Hseq. exact (workerPool_exact _ _ _ _ Background _ eq_refl HF).
  - rewrite <- Hseq. by apply workerPool_returns.
  - intros F HF. by eapply poolReturns_no_worker.
  - destruct (poolReturns_some ConcurrentVelocityProcessor.config
                [NewVelocityPeriod week 2] oneViolation
                (λ order _, pipeline_roomy (length order)) Background 0) as (F & HF).
    assert (F = ∅) as <-; [|exact HF].
    eapply poolReturns_no_worker; [|exact HF]. lia.
Qed.

(** The worker pool's half of C2: a zero or negative count builds the
    processor that the count 4 builds. *)
Lemma NewWorkerVelocityProcessor_default periods wc :
  wc ≤ 0 →
  WorkerVelocityProcessor.NewWorkerVelocityProcessor periods wc
  = WorkerVelocityProcessor.NewWorkerVelocityProcessor periods 4.
Proof.
  intros Hwc. unfold WorkerVelocityProcessor.NewWorkerVelocityProcessor.
  destruct (Z.leb_spec wc 0); [done|lia].
Qed.

(** C5.  Monotonicity: a user flagged on a batch is flagged on every batch
    that holds all its transactions and more, whoever the added ones
    belong to and wherever they are inserted. *)
Theorem flagged_monotone periods transactions transactions' userID :
  transactions ⊆+ transactions' →
  userID ∈ sequential periods transactions →
  userID ∈ sequential periods transactions'.
Proof.
  intros Hsub. rewrite !sequential_elem. intros (p & Hp & Hd).
  exists p. split; [done|].
  eapply denseWindow_mono; [|done]. by apply timestampsOf_submseteq.
Qed.

Lemma flagged_monotone_witness :
  exactThreshold ++ [mkTx userID1 (Add 0 (3 * Hour))]
    ⊆+ mkTx userID2 0 :: sortedFour
  ∧ userID1 ∈ sequential [NewVelocityPeriod week 3] (mkTx userID2 0 :: sortedFour).
Proof.
  assert (exactThreshold ++ [mkTx userID1 (Add 0 (3 * Hour))]
            ⊆+ mkTx userID2 0 :: sortedFour) as Hsub.
  { apply submseteq_cons. reflexivity. }
  split; [exact Hsub|].
  apply (flagged_monotone [NewVelocityPeriod week 3]
           (exactThreshold ++ [mkTx userID1 (Add 0 (3 * Hour))])
           (mkTx userID2 0 :: sortedFour) userID1 Hsub).
  vm_compute. reflexivity.
Defined.

(** C6.  Permutation invariance: the sequential evaluator returns the same
    set on every reordering of the batch, and so do the worker pool and the
    pipeline when they run to the end uncancelled. *)
Theorem permutation_invariant periods workerCount transactions transactions' :
  transactions ≡ₚ transactions' →
  sequential periods transactions = sequential periods transactions'
  ∧ (∀ c c' flagged flagged', isDone c' = false →
       workerPool periods workerCount c transactions c' flagged →
       workerPool periods workerCount c transactions' c' flagged' →
       flagged = flagged')
  ∧ (∀ c c' flagged flagged', 0 < workerCount → isDone c' = false →
       pipeline periods workerCount c transactions c' flagged →
       pipeline periods workerCount c transactions' c' flagged' →
       flagged = flagged').
Proof.
  intros Hp. pose proof (sequential_perm periods _ _ Hp) as Hseq.
  split; [done|]. split.
  - intros c c' F F' Hdone HF HF'.
    rewrite (workerPool_exact _ _ _ _ _ _ Hdone HF).
    by rewrite (workerPool_exact _ _ _ _ _ _ Hdone HF').
  - intros c c' F F' Hwc Hdone HF HF'.
    rewrite (pipeline_exact _ _ _ _ _ _ Hwc Hdone HF).
    by rewrite (pipeline_exact _ _ _ _ _ _ Hwc Hdone HF').
Qed.

Lemma permutation_invariant_witness :
  unsortedFour ≡ₚ sortedFour
  ∧ sequential [NewVelocityPeriod week 3] unsortedFour
    = sequential [NewVelocityPeriod week 3] sortedFour.
Proof.
  assert (unsortedFour ≡ₚ sortedFour) as Hp.
  { unfold unsortedFour, sortedFour.
    etrans; [apply Permutation_cons_append|]. simpl.
    apply Permutation_skip, Permutation_swap. }
  split; [exact Hp|].
  apply (permutation_invariant [NewVelocityPeriod week 3] 4 unsortedFour sortedFour Hp).
Defined.

(** C7.  An empty batch or an empty period list gives the empty set with
    each of the three evaluators, whatever the worker count and the state
    of the context; and each of them does return. *)
Theorem degenerate_input_flags_nobody periods workerCount transactions c :
  sequential periods [] = ∅
  ∧ sequential [] transactions = ∅
  ∧ (∀ c' flagged, workerPool periods workerCount c [] c' flagged → flagged = ∅)
  ∧ (∀ c' flagged, workerPool [] workerCount c transactions c' flagged → flagged = ∅)
  ∧ (∀ c' flagged, pipeline periods workerCount c [] c' flagged → flagged = ∅)
  ∧ (∀ c' flagged, pipeline [] workerCount c transactions c' flagged → flagged = ∅)
  ∧ workerPool periods workerCount c [] c ∅
  ∧ workerPool [] workerCount c transactions c ∅
  ∧ pipeline periods workerCount c [] c ∅
  ∧ pipeline [] workerCount c transactions c ∅.
Proof.
  pose proof (sequential_no_transactions periods) as Hnt.
  pose proof (sequential_no_periods transactions) as Hnp.
  assert (∀ F G : gset UUID, F ⊆ G → G = ∅ → F = ∅) as Hempty by set_solver.
  assert (∀ ps txs, sequential ps txs = ∅ →
            workerPool ps workerCount c txs c ∅) as Hw.
  { intros ps txs Hseq.
    destruct (poolReturns_some (WorkerVelocityProcessor.config txs) ps txs
                (λ order, worker_roomy txs order) c
                (WorkerVelocityProcessor.WorkerCount
                   (WorkerVelocityProcessor.NewWorkerVelocityProcessor ps workerCount)))
      as (F & HF).
    pose proof (workerPool_subset _ _ _ _ _ _ HF) as Hsub.
    by rewrite <- (Hempty _ _ Hsub Hseq). }
  assert (∀ ps txs, sequential ps txs = ∅ →
            pipeline ps workerCount c txs c ∅) as Hpl.
  { intros ps txs Hseq.
    destruct (poolReturns_some ConcurrentVelocityProcessor.config ps txs
                (λ order _, pipeline_roomy (length order)) c workerCount) as (F & HF).
    pose proof (pipeline_subset _ _ _ _ _ _ HF) as Hsub.
    by rewrite <- (Hempty _ _ Hsub Hseq). }
  repeat split; try done.
  - intros c' F HF. eapply Hempty; [by eapply workerPool_subset|done].
  - intros c' F HF. eapply Hempty; [by eapply workerPool_subset|done].
  - intros c' F HF. eapply Hempty; [by eapply pipeline_subset|done].
  - intros c' F HF. eapply Hempty; [by eapply pipeline_subset|done].
  - by apply Hw.
  - by apply Hw.
  - by apply Hpl.
  - by apply Hpl.
Qed.

(** C9.  [NewRuleEngine] does not read its argument: the engine it returns
    holds no processor, and the processors of an engine are exactly those
    added afterwards with [AddRuleProcessor], in the order of the calls. *)
Theorem NewRuleEngine_ignores_validators validators added :
  processors (NewRuleEngine validators) = []
  ∧ NewRuleEngine validators = NewRuleEngine []
  ∧ processors (foldl AddRuleProcessor (NewRuleEngine validators) added) = added.
Proof.
  split; [done|]. split; [done|].
  assert (∀ r, processors (foldl AddRuleProcessor r added) = processors r ++ added) as H.
  { induction added as [|p added IH]; intros r; simpl.
    - by rewrite app_nil_r.
    - rewrite IH. simpl. by rewrite <- app_assoc. }
  by rewrite H.
Qed.

(** Deciding, for concrete spans, which timestamps a window holds. *)
Ltac solve_window :=
  unfold inWindow, Sub, Add, week, Hour, Second, Nanosecond, maxDuration,
    minDuration; split_ltb; lia.

Ltac window_eval H :=
  repeat first
    [ rewrite filter_cons_True in H by solve_window
    | rewrite filter_cons_False in H by solve_window ];
  rewrite ?filter_nil in H.

(** ** Windows as sets of timestamps *)

(** A non-empty list of timestamps has a latest one. *)
Lemma latest_timestamp (w : list Time) :
  w ≠ [] → ∃ t, t ∈ w ∧ ∀ a, a ∈ w → a ≤ t.
Proof.
  induction w as [|x w IH]; [done|]. intros _.
  destruct w as [|y w].
  - exists x. split; [left|]. by intros a ->%list_elem_of_singleton.
  - destruct IH as (t & Ht & Hmax); [done|].
    destruct (Z.le_gt_cases x t).
    + exists t. split; [by right|].
      intros a [->|Ha]%elem_of_cons; [done|by apply Hmax].
    + exists x. split; [left|].
      intros a [->|Ha]%elem_of_cons; [done|]. specialize (Hmax a Ha). lia.
Qed.

(** The timestamps of a window ending at [t] fit in the span. *)
Lemma window_withinSpan d t ts : withinSpan d (filter (inWindow d t) ts).
Proof.
  intros a b [[Ha _] _]%list_elem_of_filter [[_ Hb] _]%list_elem_of_filter.
  etrans; [|exact Hb]. by apply Sub_mono_l.
Qed.

(** A dense window is a set of more than [k] of the timestamps that fits
    in the span; for a negative [k] the empty set is one, and the rule
    then needs a transaction to look at. *)
Lemma denseWindow_iff d k ts :
  denseWindow d k ts
  ↔ ts ≠ [] ∧ ∃ w, w ⊆+ ts ∧ withinSpan d w ∧ k < Z.of_nat (length w).
Proof.
  unfold denseWindow. rewrite Exists_exists. split.
  - intros (t & Ht & Hk). split; [by intros ->; apply elem_of_nil in Ht|].
    exists (filter (inWindow d t) ts). split; [|split; [|done]].
    + apply sublist_submseteq, sublist_filter.
    + apply window_withinSpan.
  - intros (Hne & w & Hsub & Hspan & Hk).
    destruct w as [|x w].
    + destruct ts as [|t ts]; [done|]. exists t. split; [left|].
      simpl in Hk. lia.
    + destruct (latest_timestamp (x :: w)) as (t & Ht & Hmax); [done|].
      exists t. split; [by eapply elem_of_submseteq|].
      eapply Z.lt_le_trans; [exact Hk|]. apply inj_le.
      rewrite <- (filter_all (inWindow d t) (x :: w)).
      * unfold windowCount. by apply submseteq_length, filter_submseteq_mono.
      * apply Forall_forall. intros a Ha. split; [by apply Hmax|by apply Hspan].
Qed.

(** ** Spans as [Sub] measures them and spans on the time line *)

(** A set that fits in a span on the time line fits in it as [Sub]
    measures it: saturation only brings distances closer to zero. *)
Lemma withinExactSpan_withinSpan d w : withinExactSpan d w → withinSpan d w.
Proof.
  intros Hw a b Ha Hb.
  pose proof (Hw a b Ha Hb). pose proof (Hw b a Hb Ha).
  unfold Sub, maxDuration, minDuration. split_ltb; lia.
Qed.

(** Below [maxDuration] the converse holds: a distance that [Sub] reports
    as at most [d] was not cut down to [maxDuration]. *)
Lemma withinSpan_withinExactSpan d w :
  d < maxDuration → withinSpan d w → withinExactSpan d w.
Proof.
  intros Hd Hw a b Ha Hb. specialize (Hw a b Ha Hb).
  unfold Sub, maxDuration, minDuration in *. revert Hw. split_ltb; lia.
Qed.

(** From [maxDuration] on every set of timestamps fits in the span as
    [Sub] measures it, however far apart its members are. *)
Lemma withinSpan_maxDuration d w : maxDuration ≤ d → withinSpan d w.
Proof.
  intros Hd a b _ _. etrans; [|exact Hd].
  unfold Sub, maxDuration, minDuration. split_ltb; lia.
Qed.

(** The rule as the code measures spans: a user is flagged by the single
    period [(d, k)] exactly when the batch holds a transaction of the user
    and more than [k] of them fit in a span of [d] as [Sub] measures it. *)
Lemma flagged_iff_crowded_span d k transactions userID :
  userID ∈ sequential [NewVelocityPeriod d k] transactions
  ↔ timestampsOf userID transactions ≠ []
    ∧ ∃ w, w ⊆+ timestampsOf userID transactions ∧ withinSpan d w
           ∧ k < Z.of_nat (length w).
Proof.
  rewrite sequential_elem. unfold violatesSome. split.
  - intros (p & ->%list_elem_of_singleton & Hd). by apply denseWindow_iff in Hd.
  - intros Hd. exists (NewVelocityPeriod d k). split; [left|].
    by apply denseWindow_iff.
Qed.

(** With a duration of [maxDuration] (or more) the span no longer matters:
    the user is flagged as soon as the batch holds more than [k] of the
    user's transactions. *)
Lemma maxDuration_counts_the_whole_batch d k transactions userID :
  maxDuration ≤ d →
  userID ∈ sequential [NewVelocityPeriod d k] transactions
  ↔ timestampsOf userID transactions ≠ []
    ∧ k < Z.of_nat (length (timestampsOf userID transactions)).
Proof.
  intros Hd. rewrite flagged_iff_crowded_span. split.
  - intros (Hne & w & Hsub & _ & Hk). split; [done|].
    apply submseteq_length in Hsub. lia.
  - intros (Hne & Hk). split; [done|].
    exists (timestampsOf userID transactions).
    split; [done|]. split; [by apply withinSpan_maxDuration|done].
Qed.

(** C3.  The comparison with the threshold is strict, for every duration
    below [maxDuration].  With the single period of span [d] and threshold
    [k], and spans taken on the time line: if [d < maxDuration], a user
    none of whose sets of transactions within a span of [d] has more than
    [k] members is not flagged, so a window of exactly [k] does not flag;
    and for every [d], a user with [k + 1] transactions (or more) within
    such a span is flagged (for a negative [k], where [k + 1] transactions
    may be none, a user who has a transaction in the batch). *)
Theorem threshold_is_strict_below_maxDuration d k transactions userID :
  (d < maxDuration →
   (∀ w, w ⊆+ timestampsOf userID transactions → withinExactSpan d w →
         Z.of_nat (length w) ≤ k) →
   userID ∉ sequential [NewVelocityPeriod d k] transactions)
  ∧ (∀ w, w ⊆+ timestampsOf userID transactions → withinExactSpan d w →
          k + 1 ≤ Z.of_nat (length w) →
          (k < 0 → timestampsOf userID transactions ≠ []) →
          userID ∈ sequential [NewVelocityPeriod d k] transactions).
Proof.
  split.
  - intros Hd Hsparse (_ & w & Hsub & Hspan & Hk)%flagged_iff_crowded_span.
    apply (withinSpan_withinExactSpan _ _ Hd) in Hspan.
    specialize (Hsparse w Hsub Hspan). lia.
  - intros w Hsub Hspan Hk Hne. apply flagged_iff_crowded_span. split.
    + destruct (Z.lt_ge_cases k 0) as [Hneg|Hpos]; [by apply Hne|].
      intros Hnil. rewrite Hnil in Hsub. apply submseteq_length in Hsub.
      simpl in Hsub. lia.
    + exists w. split; [done|]. split; [by apply withinExactSpan_withinSpan|lia].
Qed.

Lemma threshold_is_strict_below_maxDuration_witness :
  (userID1 ∉ sequential [NewVelocityPeriod week 3] exactThreshold)
  ∧ userID1 ∈ sequential [NewVelocityPeriod week 3] sortedFour.
Proof.
  split.
  - apply (proj1 (threshold_is_strict_below_maxDuration week 3 exactThreshold userID1)).
    + reflexivity.
    + intros w Hsub _. apply submseteq_length in Hsub. simpl in Hsub. lia.
  - apply (proj2 (threshold_is_strict_below_maxDuration week 3 sortedFour userID1)
             (timestampsOf userID1 sortedFour)).
    + reflexivity.
    + intros a b Ha Hb. vm_compute in Ha, Hb.
      repeat (apply elem_of_cons in Ha as [->|Ha]);
        repeat (apply elem_of_cons in Hb as [->|Hb]);
        try (by apply elem_of_nil in Ha); try (by apply elem_of_nil in Hb);
        by vm_compute.
    + simpl. lia.
    + intros Hk. vm_compute in Hk. discriminate.
Defined.

(** At [d = maxDuration] the first half of C3 fails.  The two transactions
    of [farApart] are 330 years apart, more than [maxDuration] (about 292
    years): each of them alone is a set of exactly [k = 1] transactions
    within a span of [maxDuration], no set of the user's transactions
    within such a span has two members, and the user is flagged, because
    [Sub] reports the distance between the two as [maxDuration]. *)
Lemma threshold_not_strict_at_maxDuration :
  (∃ w, w ⊆+ timestampsOf userID1 farApart ∧ withinExactSpan maxDuration w
        ∧ Z.of_nat (length w) = 1)
  ∧ (∀ w, w ⊆+ timestampsOf userID1 farApart → withinExactSpan maxDuration w →
          Z.of_nat (length w) ≤ 1)
  ∧ userID1 ∈ sequential [NewVelocityPeriod maxDuration 1] farApart.
Proof.
  assert (timestampsOf userID1 farApart = [0; Add (Add 0 (165 * year)) (165 * year)])
    as Hts by reflexivity.
  rewrite Hts. split; [|split].
  - exists [0]. split; [|split; [|done]].
    + apply submseteq_skip, submseteq_nil_l.
    + intros a b ->%list_elem_of_singleton ->%list_elem_of_singleton. done.
  - intros w Hsub Hspan.
    destruct (decide (length w ≤ 1)%nat) as [|Hlong]; [lia|]. exfalso.
    pose proof (submseteq_length _ _ Hsub) as Hlen. simpl in Hlen.
    apply submseteq_length_Permutation in Hsub; [|simpl; lia].
    assert (0 ∈ w) as H0 by (rewrite Hsub; set_solver).
    assert (Add (Add 0 (165 * year)) (165 * year) ∈ w) as H1
      by (rewrite Hsub; set_solver).
    specialize (Hspan _ _ H1 H0). vm_compute in Hspan. by apply Hspan.
  - apply maxDuration_counts_the_whole_batch; [done|].
    rewrite Hts. split; [done|]. simpl. lia.
Qed.

(** C4.  With the single period (7 days, 2), transactions of one user at
    [t], [t + 1h] and [t + 8 days] flag nobody, with any of the three
    evaluators: the third transaction is more than 7 days after the other
    two. *)
Theorem eight_days_apart_not_flagged userID t a1 a2 a3 n1 n2 n3 :
  let transactions :=
    [ {| UserID := userID; Amount := a1; Country := n1; CreatedAt := t |};
      {| UserID := userID; Amount := a2; Country := n2; CreatedAt := Add t (1 * Hour) |};
      {| UserID := userID; Amount := a3; Country := n3;
         CreatedAt := Add t (8 * 24 * Hour) |} ] in
  sequential [NewVelocityPeriod week 2] transactions = ∅
  ∧ (∀ workerCount c c' flagged,
       workerPool [NewVelocityPeriod week 2] workerCount c transactions c' flagged →
       flagged = ∅)
  ∧ (∀ workerCount c c' flagged,
       pipeline [NewVelocityPeriod week 2] workerCount c transactions c' flagged →
       flagged = ∅).
Proof.
  intros txs.
  assert (sequential [NewVelocityPeriod week 2] txs = ∅) as Hseq.
  { apply set_eq. intros u. split; [|set_solver].
    intros (p & ->%list_elem_of_singleton & Hd)%sequential_elem. exfalso.
    assert (timestampsOf u txs ⊆+ [t; Add t (1 * Hour); Add t (8 * 24 * Hour)]) as Hts.
    { unfold timestampsOf, txs. rewrite !filter_cons, filter_nil. simpl.
      destruct (decide (userID = u)); [done|]. apply submseteq_nil_l. }
    apply (denseWindow_mono _ _ _ _ Hts) in Hd. simpl in Hd.
    unfold denseWindow, windowCount in Hd.
    rewrite !Exists_cons, Exists_nil in Hd.
    window_eval Hd. simpl in Hd. lia. }
  split; [done|]. split.
  - intros wc c c' F HF. apply workerPool_subset in HF. set_solver.
  - intros wc c c' F HF. apply pipeline_subset in HF. set_solver.
Qed.

(** C8.  Cancellation.  Whatever the context (cancelled before the call,
    during it, or never), the worker count and the schedule, every state
    [s] of a run of the worker pool and every state [s'] of a run of the
    pipeline behaves: no step panics, the caller's loop can still end and
    every schedule is finite, the set returned holds only users the
    sequential evaluator flags, no worker starts a job once the context is
    done, and when nothing is left to run all workers have exited and the
    caller has returned. *)
Theorem cancellation_is_safe periods workerCount transactions c order s s' :
  iterationOrder (partition transactions) order →
  rtc (step (WorkerVelocityProcessor.config transactions) periods)
    (start c order
       (WorkerVelocityProcessor.WorkerCount
          (WorkerVelocityProcessor.NewWorkerVelocityProcessor periods workerCount))) s →
  rtc (step ConcurrentVelocityProcessor.config periods)
    (start c order
       (ConcurrentVelocityProcessor.WorkerCount
          (ConcurrentVelocityProcessor.NewConcurrentVelocityProcessor periods
             workerCount))) s' →
  behaves (WorkerVelocityProcessor.config transactions) periods
    (sequential periods transactions) s
  ∧ behaves ConcurrentVelocityProcessor.config periods
      (sequential periods transactions) s'.
Proof.
  intros Hord Hs Hs'. split.
  - eapply reachable_behaves; [|done|done]. intros o. apply worker_roomy.
  - eapply reachable_behaves; [|done|done]. intros o _. apply pipeline_roomy.
Qed.

Lemma cancellation_is_safe_witness :
  ∃ s s',
    runSchedule (WorkerVelocityProcessor.config oneViolation) [NewVelocityPeriod week 2]
      [ProducerSend; WorkerReceive 0; Cancel; WorkerCheck 0; ProducerAbort]
      (start (Cancellable false) (map_to_list (partition oneViolation)) 4) = Some s
    ∧ runSchedule ConcurrentVelocityProcessor.config [NewVelocityPeriod week 2]
        [ProducerSend; ProducerSend; WorkerReceive 1; WorkerCheck 1; Cancel;
         WorkerReceive 0; WorkerCheck 0; WorkerSend 1; Collect]
        (start (Cancellable false) (map_to_list (partition oneViolation)) 4) = Some s'
    ∧ behaves (WorkerVelocityProcessor.config oneViolation) [NewVelocityPeriod week 2]
        (sequential [NewVelocityPeriod week 2] oneViolation) s
    ∧ behaves ConcurrentVelocityProcessor.config [NewVelocityPeriod week 2]
        (sequential [NewVelocityPeriod week 2] oneViolation) s'.
Proof.
  eexists. eexists.
  split; [vm_compute; reflexivity|]. split; [vm_compute; reflexivity|].
  apply (cancellation_is_safe [NewVelocityPeriod week 2] 4 oneViolation
           (Cancellable false) (map_to_list (partition oneViolation))).
  - unfold iterationOrder. reflexivity.
  - apply (runSchedule_rtc _ _
             [ProducerSend; WorkerReceive 0; Cancel; WorkerCheck 0; ProducerAbort]).
    vm_compute. reflexivity.
  - apply (runSchedule_rtc _ _
             [ProducerSend; ProducerSend; WorkerReceive 1; WorkerCheck 1; Cancel;
              WorkerReceive 0; WorkerCheck 0; WorkerSend 1; Collect]).
    vm_compute. reflexivity.
Defined.

(** ** Slices: partitioning builds arrays of its own *)

Lemma take_snoc_pad {A} (l : list A) x pad n :
  length l = n → take (S n) (l ++ x :: pad) = l ++ [x].
Proof.
  intros <-. rewrite take_app, take_ge by lia.
  by replace (S (length l) - length l)%nat with 1%nat by lia.
Qed.

Lemma take_insert_snoc {A} (l : list A) x n :
  (n < length l)%nat → take (S n) (<[n:=x]> l) = take n l ++ [x].
Proof.
  intros Hn. rewrite (take_S_r _ _ x) by by apply list_lookup_insert_eq.
  by rewrite take_insert_ge.
Qed.

Lemma filter_snoc_same (seen : list Transaction) tx :
  filter (λ tx', UserID tx' = UserID tx) (seen ++ [tx])
  = filter (λ tx', UserID tx' = UserID tx) seen ++ [tx].
Proof. rewrite filter_app. by rewrite (filter_cons_True _ tx []). Qed.

Lemma filter_snoc_other (seen : list Transaction) tx u :
  u ≠ UserID tx →
  filter (λ tx', UserID tx' = u) (seen ++ [tx]) = filter (λ tx', UserID tx' = u) seen.
Proof.
  intros Hne. rewrite filter_app, (filter_cons_False _ tx []) by done.
  by rewrite filter_nil, app_nil_r.
Qed.

Section slices.
Variable growCap : nat → nat.
Hypothesis growCap_grows : ∀ c, (c < growCap c)%nat.

Lemma partitioned_start h0 : partitioned h0 [] (h0, ∅).
Proof.
  constructor; simpl.
  - done.
  - intros u s Hs. by rewrite lookup_empty in Hs.
  - intros u u' s s' _ Hs. by rewrite lookup_empty in Hs.
  - done.
Qed.

(** The slices of the other users after a step for [tx]. *)
Lemma others_kept h0 seen (h h' : Heap) (m : gmap UUID Slice) tx u s :
  partitioned h0 seen (h, m) →
  (∀ a content, h !! a = Some content → a ∉ dom h0 →
     (∀ s0, m !! UserID tx = Some s0 → array s0 ≠ Some a) →
     h' !! a = Some content) →
  u ≠ UserID tx → m !! u = Some s →
  ∃ a content,
    array s = Some a ∧ offset s = 0%nat ∧ (a ∉ dom h0)
    ∧ h' !! a = Some content
    ∧ length content = capacity s ∧ (len s ≤ capacity s)%nat
    ∧ take (len s) content = filter (λ tx', UserID tx' = u) (seen ++ [tx]).
Proof.
  intros [_ Hown Hshare _] Hkeep Hu Hs. simpl in *.
  destruct (Hown u s Hs) as (a & content & Ha & Hoff & Hnew & Hc & Hlen & Hcap & Htake).
  exists a, content. rewrite filter_snoc_other by done.
  repeat split; try done.
  apply Hkeep; [done|done|].
  intros s0 Hs0 Ha0. apply (Hshare u (UserID tx) s s0 Hu Hs Hs0). congruence.
Qed.

(** One [append] that has to allocate, for a user whose transactions so
    far are the elements of [s0]. *)
Lemma grow_partitioned h0 seen (h : Heap) (m : gmap UUID Slice) tx s0 :
  partitioned h0 seen (h, m) →
  (∀ s, m !! UserID tx = Some s → s = s0) →
  elems h s0 = filter (λ tx', UserID tx' = UserID tx) seen →
  length (elems h s0) = len s0 →
  (len s0 ≤ capacity s0)%nat →
  partitioned h0 (seen ++ [tx])
    (<[fresh (dom h) := elems h s0 ++ tx
                        :: replicate (growCap (capacity s0) - S (len s0))
                             zeroTransaction]> h,
     <[UserID tx := {| array := Some (fresh (dom h)); offset := 0;
                       len := S (len s0);
                       capacity := growCap (capacity s0) |}]> m).
Proof.
  intros Hp Hs0 Hel Hlen Hcap.
  pose proof (old_kept _ _ _ Hp) as Hold. pose proof (own_array _ _ _ Hp) as Hown.
  pose proof (no_sharing _ _ _ Hp) as Hshare.
  pose proof (no_stranger _ _ _ Hp) as Hstr. simpl in Hold, Hown, Hshare, Hstr.
  pose proof (is_fresh (dom h)) as Hfresh.
  pose proof (growCap_grows (capacity s0)) as Hgrow.
  set (a' := fresh (dom h)) in *. set (c := growCap (capacity s0)) in *.
  assert (a' ∉ dom h0) as Hnew.
  { intros Hin. apply Hfresh, elem_of_dom.
    rewrite (Hold a' Hin). by apply elem_of_dom. }
  constructor; simpl.
  - intros l Hl. rewrite lookup_insert_ne by (by intros <-).
    by apply Hold.
  - intros u s. destruct (decide (u = UserID tx)) as [->|Hu].
    + rewrite lookup_insert_eq. intros [= <-]. simpl.
      exists a', (elems h s0 ++ tx :: replicate (c - S (len s0)) zeroTransaction).
      rewrite lookup_insert_eq.
      split; [done|]. split; [done|]. split; [done|]. split; [done|].
      split; [|split; [lia|]].
      * rewrite length_app. simpl. rewrite length_replicate. lia.
      * rewrite take_snoc_pad by done. by rewrite filter_snoc_same, Hel.
    + rewrite lookup_insert_ne by done. intros Hs.
      eapply others_kept; [done| |done|done].
      intros a content Ha _ _. rewrite lookup_insert_ne; [done|].
      intros <-. apply Hfresh, elem_of_dom. by rewrite Ha.
  - intros u u' s s' Hne.
    assert (∀ v t, v ≠ UserID tx → m !! v = Some t → array t ≠ Some a') as Hnot.
    { intros v t Hv Ht Ha.
      destruct (Hown v t Ht) as (a & content & Ha' & _ & _ & Hc & _). apply Hfresh, elem_of_dom. replace a' with a by congruence.
      by rewrite Hc. }
    destruct (decide (u = UserID tx)) as [->|Hu];
      destruct (decide (u' = UserID tx)) as [->|Hu']; [done|..].
    * rewrite lookup_insert_eq, lookup_insert_ne by done.
      intros [= <-] Hs'. simpl. intros Heq. by eapply Hnot.
    * rewrite lookup_insert_ne, lookup_insert_eq by done.
      intros Hs [= <-]. simpl. by eapply Hnot.
    * rewrite !lookup_insert_ne by done. by apply Hshare.
  - intros u. destruct (decide (u = UserID tx)) as [->|Hu].
    + by rewrite lookup_insert_eq.
    + rewrite lookup_insert_ne by done. intros Hnone.
      rewrite filter_snoc_other by done. by apply Hstr.
Qed.

Lemma appendTxHeap_partitioned h0 seen st tx :
  partitioned h0 seen st →
  partitioned h0 (seen ++ [tx]) (appendTxHeap growCap st tx).
Proof.
  destruct st as [h m]. intros Hp. unfold appendTxHeap. simpl.
  pose proof (old_kept _ _ _ Hp) as Hold. pose proof (own_array _ _ _ Hp) as Hown.
  pose proof (no_sharing _ _ _ Hp) as Hshare.
  pose proof (no_stranger _ _ _ Hp) as Hstr. simpl in Hold, Hown, Hshare, Hstr.
  destruct (m !! UserID tx) as [s0|] eqn:Hs0; simpl.
  - destruct (Hown _ _ Hs0)
      as (a & content & Ha & Hoff & Hnew & Hc & Hlen & Hcap & Htake).
    assert (elems h s0 = filter (λ tx', UserID tx' = UserID tx) seen) as Hel.
    { unfold elems. rewrite Ha, Hoff, Hc. simpl. by rewrite drop_0. }
    assert (length (elems h s0) = len s0) as Hellen.
    { unfold elems. rewrite Ha, Hoff, Hc. simpl. rewrite drop_0, length_take. lia. }
    unfold append. rewrite Ha. case_bool_decide as Hroom.
    + rewrite Hoff, Hc. simpl.
      constructor; simpl.
      * intros l Hl. rewrite lookup_insert_ne by (by intros <-).
        by apply Hold.
      * intros u s. destruct (decide (u = UserID tx)) as [->|Hu].
        -- rewrite lookup_insert_eq. intros [= <-]. simpl.
           exists a, (<[len s0 := tx]> content). rewrite lookup_insert_eq.
           split; [done|]. split; [done|]. split; [done|]. split; [done|].
           split; [by rewrite length_insert|]. split; [lia|].
           rewrite take_insert_snoc by lia. by rewrite filter_snoc_same, Htake.
        -- rewrite lookup_insert_ne by done. intros Hs.
           eapply others_kept; [done| |done|done].
           intros a1 content1 Ha1 _ Hother. rewrite lookup_insert_ne; [done|].
           intros <-. by apply (Hother s0).
      * intros u u' s s' Hne.
        destruct (decide (u = UserID tx)) as [->|Hu];
          destruct (decide (u' = UserID tx)) as [->|Hu']; [done|..].
        -- rewrite lookup_insert_eq, lookup_insert_ne by done.
           intros [= <-] Hs'. simpl. rewrite <- Ha.
           by apply (Hshare (UserID tx) u').
        -- rewrite lookup_insert_ne, lookup_insert_eq by done.
           intros Hs [= <-]. simpl. rewrite <- Ha.
           by apply (Hshare u (UserID tx)).
        -- rewrite !lookup_insert_ne by done. by apply Hshare.
      * intros u. destruct (decide (u = UserID tx)) as [->|Hu].
        -- by rewrite lookup_insert_eq.
        -- rewrite lookup_insert_ne by done. intros Hnone.
           rewrite filter_snoc_other by done. by apply Hstr.
    + apply grow_partitioned; try done. intros s Hs. congruence.
  - unfold append. simpl.
    apply (grow_partitioned h0 seen h m tx nilSlice); try done.
    + intros s Hs. congruence.
    + simpl. symmetry. by apply Hstr.
Qed.

Lemma foldl_partitioned h0 seen st txs :
  partitioned h0 seen st →
  partitioned h0 (seen ++ txs) (foldl (appendTxHeap growCap) st txs).
Proof.
  revert seen st. induction txs as [|tx txs IH]; intros seen st Hp; simpl.
  - by rewrite app_nil_r.
  - rewrite (cons_middle tx), app_assoc. by apply IH, appendTxHeap_partitioned.
Qed.

(** After the grouping loop every user has an array of its own. *)
Lemma partitionHeap_partitioned h transactions :
  partitioned h (elems h transactions) (partitionHeap growCap h transactions).
Proof. apply (foldl_partitioned h []), partitioned_start. Qed.

End slices.

(** ** Slices: the jobs sort arrays of their own *)

Lemma sortSlice_length txs : length (sortSlice txs) = length txs.
Proof. apply Permutation_length, sortSlice_perm. Qed.

Lemma take_sorted_part (content : list Transaction) n :
  take n (sortSlice (take n content) ++ drop n content) = sortSlice (take n content).
Proof.
  destruct (decide (n ≤ length content)%nat).
  - apply take_app_length'. rewrite sortSlice_length, length_take. lia.
  - rewrite drop_ge, app_nil_r by lia. apply take_ge.
    rewrite sortSlice_length, length_take. lia.
Qed.

Lemma periods_sortSlice_perm periods txs txs' :
  txs ≡ₚ txs' →
  hasViolatedVelocityPeriods periods (sortSlice txs)
  = hasViolatedVelocityPeriods periods (sortSlice txs').
Proof.
  intros Hp. apply eq_true_iff_eq. rewrite !periods_sortSlice.
  unfold violatesSome.
  assert (CreatedAt <$> txs ≡ₚ CreatedAt <$> txs') as Hts by by rewrite Hp.
  by setoid_rewrite (denseWindow_perm _ _ _ _ Hts).
Qed.

Lemma partitioned_processing h0 seen (h : Heap) (m : gmap UUID Slice) :
  partitioned h0 seen (h, m) → processing h0 seen m h.
Proof.
  intros [Hold Hown Hshare _]. simpl in *. constructor; [done| |done].
  intros u s Hs.
  destruct (Hown u s Hs) as (a & content & ? & ? & ? & ? & _ & _ & Htake).
  exists a, content. by rewrite Htake.
Qed.

(** Sorting a job's slice rearranges that job's array and nothing else. *)
Lemma sortInPlace_processing h0 seen (m : gmap UUID Slice) (h : Heap) u s :
  processing h0 seen m h → m !! u = Some s →
  processing h0 seen m (sortInPlace h s)
  ∧ ∃ txs, elems (sortInPlace h s) s = sortSlice txs
           ∧ txs ≡ₚ filter (λ tx, UserID tx = u) seen.
Proof.
  intros [Hold Hown Hshare] Hs.
  destruct (Hown u s Hs) as (a & content & Ha & Hoff & Hnew & Hc & Htake).
  assert (sortInPlace h s
          = <[a := sortSlice (take (len s) content) ++ drop (len s) content]> h) as Hsort.
  { unfold sortInPlace. rewrite Ha, Hoff, Hc. simpl. by rewrite drop_0. }
  rewrite Hsort. split.
  - constructor; [| |done].
    + intros l Hl. rewrite lookup_insert_ne by (by intros <-). by apply Hold.
    + intros v t Ht. destruct (decide (v = u)) as [->|Hv].
      * assert (t = s) as -> by congruence.
        exists a, (sortSlice (take (len s) content) ++ drop (len s) content).
        rewrite lookup_insert_eq, take_sorted_part.
        repeat split; try done. by rewrite sortSlice_perm.
      * destruct (Hown v t Ht) as (b & contentb & Hb & ? & ? & Hcb & ?).
        exists b, contentb. rewrite lookup_insert_ne; [done|].
        intros <-. apply (Hshare v u t s Hv Ht Hs). congruence.
  - exists (take (len s) content). split; [|done].
    unfold elems. rewrite Ha, Hoff, lookup_insert_eq. simpl.
    by rewrite drop_0, take_sorted_part.
Qed.

Lemma processUserHeap_spec periods h0 seen (m : gmap UUID Slice) (h : Heap) F u s :
  processing h0 seen m h → m !! u = Some s →
  processing h0 seen m (processUserHeap periods (h, F) (u, s)).1
  ∧ ∀ v, v ∈ (processUserHeap periods (h, F) (u, s)).2
         ↔ v ∈ F ∨ (v = u ∧ violatesSome periods (timestampsOf u seen)).
Proof.
  intros Hp Hs.
  destruct (sortInPlace_processing _ _ _ _ _ _ Hp Hs) as (Hp' & txs & Hel & Hperm).
  unfold processUserHeap. simpl. split; [done|]. intros v.
  rewrite Hel, (periods_sortSlice_perm _ _ _ Hperm).
  pose proof (periods_sortSlice periods (filter (λ tx, UserID tx = u) seen)) as Hv.
  fold (timestampsOf u seen) in Hv.
  destruct (hasViolatedVelocityPeriods periods _).
  - rewrite elem_of_union, elem_of_singleton. naive_solver.
  - split; [by left|]. intros [?|[_ Hviol]]; [done|].
    apply Hv in Hviol. done.
Qed.

Lemma foldl_processUserHeap periods h0 seen (m : gmap UUID Slice) jobs (h : Heap) F :
  processing h0 seen m h →
  (∀ u s, (u, s) ∈ jobs → m !! u = Some s) →
  processing h0 seen m (foldl (processUserHeap periods) (h, F) jobs).1
  ∧ ∀ v, v ∈ (foldl (processUserHeap periods) (h, F) jobs).2
         ↔ v ∈ F ∨ ((∃ s, (v, s) ∈ jobs) ∧ violatesSome periods (timestampsOf v seen)).
Proof.
  revert h F. induction jobs as [|[u s] jobs IH]; intros h F Hp Hjobs; simpl.
  - split; [done|]. intros v. split; [by left|].
    intros [?|[(s & Hs) _]]; [done|]. by apply elem_of_nil in Hs.
  - destruct (processUserHeap_spec periods _ _ _ _ F u s Hp) as (Hp' & HF').
    { apply Hjobs. left. }
    destruct (processUserHeap periods (h, F) (u, s)) as [h' F'] eqn:Hstep.
    simpl in Hp', HF'.
    destruct (IH h' F' Hp') as (Hp'' & HF'').
    { intros v t Hin. apply Hjobs. by right. }
    split; [done|]. intros v. rewrite HF'', HF'. split.
    + intros [[?|[-> Hv]]|[(t & Ht) Hv]]; [by left|right..].
      * split; [|done]. exists s. left.
      * split; [|done]. exists t. by right.
    + intros [?|[(t & Ht) Hv]]; [by left; left|].
      apply elem_of_cons in Ht as [[= -> ->]|Ht]; [by left; right|].
      right. split; [by exists t|done].
Qed.

Section frame.
Variable growCap : nat → nat.
Hypothesis growCap_grows : ∀ c, (c < growCap c)%nat.

Lemma processHeap_processing periods h transactions jobs :
  jobsOf growCap h transactions jobs →
  processing h (elems h transactions) (partitionHeap growCap h transactions).2
    (processHeap growCap periods h transactions jobs).1
  ∧ ∀ v, v ∈ (processHeap growCap periods h transactions jobs).2
         ↔ (∃ s, (v, s) ∈ jobs) ∧ v ∈ sequential periods (elems h transactions).
Proof.
  intros Hjobs. unfold processHeap.
  pose proof (partitionHeap_partitioned growCap growCap_grows h transactions) as Hp.
  destruct (partitionHeap growCap h transactions) as [h1 m] eqn:Hpart.
  apply partitioned_processing in Hp.
  destruct (foldl_processUserHeap periods _ _ _ jobs h1 ∅ Hp) as (Hp' & HF).
  { intros u s Hin. specialize (Hjobs u s Hin). by rewrite Hpart in Hjobs. }
  split; [done|]. intros v. rewrite HF, sequential_elem. set_solver.
Qed.

(** Run over every entry of the map, the store-passing evaluator returns
    what the value-passing one returns. *)
Lemma processHeap_sequential periods h transactions jobs :
  jobsOf growCap h transactions jobs →
  (∀ u s, (partitionHeap growCap h transactions).2 !! u = Some s → (u, s) ∈ jobs) →
  (processHeap growCap periods h transactions jobs).2
  = sequential periods (elems h transactions).
Proof.
  intros Hjobs Hall. apply set_eq. intros v.
  destruct (processHeap_processing periods h transactions jobs Hjobs) as (_ & ->).
  split; [by intros [_ ?]|]. intros Hv. split; [|done].
  pose proof (partitionHeap_partitioned growCap growCap_grows h transactions) as Hp.
  destruct ((partitionHeap growCap h transactions).2 !! v) as [s|] eqn:Hs.
  - exists s. by apply Hall.
  - apply (no_stranger _ _ _ Hp) in Hs.
    apply sequential_elem in Hv as (p & _ & Hd).
    unfold timestampsOf in Hd. rewrite Hs in Hd.
    unfold denseWindow in Hd. by apply Exists_nil in Hd.
Qed.

End frame.

(** C10.  [Process] leaves the caller's slice as it was.  Whatever store
    the call starts from, whichever of the map's jobs are run and in
    whatever order (all of them in map order for the sequential evaluator,
    those the workers took for the worker pool and the pipeline), every
    array that existed before the call is unchanged after it, and so are
    the elements of the caller's slice. *)
Theorem Process_leaves_input_unchanged growCap periods (h : Heap) transactions jobs :
  (∀ c, (c < growCap c)%nat) →
  allocated h transactions →
  jobsOf growCap h transactions jobs →
  (∀ l, l ∈ dom h →
        (processHeap growCap periods h transactions jobs).1 !! l = h !! l)
  ∧ elems (processHeap growCap periods h transactions jobs).1 transactions
    = elems h transactions.
Proof.
  intros Hgrow Halloc Hjobs.
  destruct (processHeap_processing growCap Hgrow periods h transactions jobs Hjobs)
    as ([Hold _ _] & _).
  split; [done|]. unfold elems.
  destruct (array transactions) as [a|] eqn:Ha; [|done].
  by rewrite (Hold a (Halloc a Ha)).
Qed.

Lemma Process_leaves_input_unchanged_witness :
  elems
    (processHeap doubleCap [NewVelocityPeriod week 3] callerHeap callerSlice
       (map_to_list (partitionHeap doubleCap callerHeap callerSlice).2)).1
    callerSlice
  = unsortedFour
  ∧ (processHeap doubleCap [NewVelocityPeriod week 3] callerHeap callerSlice
       (map_to_list (partitionHeap doubleCap callerHeap callerSlice).2)).2
    = {[userID1]}.
Proof.
  split; [|vm_compute; reflexivity].
  apply (Process_leaves_input_unchanged doubleCap [NewVelocityPeriod week 3]
           callerHeap callerSlice).
  - intros c. unfold doubleCap. lia.
  - intros a [= <-]. apply elem_of_dom. by eexists.
  - intros u s Hin. by apply elem_of_map_to_list.
Defined.

(** * Further properties of the code *)

(** ** The velocity rule at its bounds *)

Lemma advanceLeft_le dflt txs d right fuel left :
  (left ≤ S right)%nat →
  (advanceLeft dflt txs d right fuel left ≤ S right)%nat.
Proof.
  revert left. induction fuel as [|fuel IH]; intros left Hl; simpl; [done|].
  case_bool_decide as Hle; simpl; [|done].
  destruct (_ <? _); [|done]. apply IH. lia.
Qed.

Lemma windowLoop_false_at_large_threshold dflt txs period todo right left :
  Z.of_nat (right + todo) ≤ Threshold period →
  windowLoop dflt txs period todo right left = false.
Proof.
  revert right left. induction todo as [|todo IH]; intros right left Hk; [done|].
  simpl. destruct (Z.ltb_spec (Threshold period)
    (Z.of_nat right
     - Z.of_nat (advanceLeft dflt txs (PeriodDuration period) right (S right - left) left)
     + 1)) as [Hlt|_].
  - lia.
  - apply IH. lia.
Qed.

(** X1.  A window never holds more transactions than the slice: when the
    threshold is at least [len(txs)], [hasViolatedVelocity] reports no
    violation, on any slice, sorted or not, and for any duration. *)
Theorem no_violation_when_threshold_covers_slice txs period :
  Z.of_nat (length txs) ≤ Threshold period →
  hasViolatedVelocity txs period = false.
Proof.
  intros Hk. apply windowLoop_false_at_large_threshold. by rewrite Nat.add_0_l.
Qed.

Lemma no_violation_when_threshold_covers_slice_witness :
  Z.of_nat (length unsortedFour) ≤ Threshold (NewVelocityPeriod (-5) 4)
  ∧ hasViolatedVelocity unsortedFour (NewVelocityPeriod (-5) 4) = false.
Proof.
  split; [simpl; lia|].
  apply (no_violation_when_threshold_covers_slice unsortedFour (NewVelocityPeriod (-5) 4)).
  simpl. lia.
Defined.

(** X2.  With a negative threshold the first turn of the loop already
    reports a violation: every non-empty slice violates, sorted or not,
    whatever the duration; the empty slice never does. *)
Theorem negative_threshold_violates_at_once txs period :
  Threshold period < 0 →
  hasViolatedVelocity txs period = bool_decide (txs ≠ []).
Proof.
  intros Hk. unfold hasViolatedVelocity, hasViolatedVelocityWith.
  destruct txs as [|tx txs]; [done|]. simpl length.
  cbn [windowLoop].
  pose proof (advanceLeft_le 0 (tx :: txs) (PeriodDuration period) 0 (1 - 0) 0
                ltac:(lia)) as Hle.
  destruct (Z.ltb_spec (Threshold period)
    (Z.of_nat 0
     - Z.of_nat (advanceLeft 0 (tx :: txs) (PeriodDuration period) 0 (1 - 0) 0) + 1))
    as [_|Hge]; [done|lia].
Qed.

Lemma negative_threshold_violates_at_once_witness :
  Threshold (NewVelocityPeriod week (-1)) < 0
  ∧ hasViolatedVelocity [mkTx userID1 0] (NewVelocityPeriod week (-1)) = true.
Proof.
  split; [simpl; lia|].
  apply (negative_threshold_violates_at_once [mkTx userID1 0] (NewVelocityPeriod week (-1))).
  simpl. lia.
Defined.

(** ** The sequential evaluator: who can be flagged *)

Lemma usersOf_elem txs u : u ∈ usersOf txs ↔ timestampsOf u txs ≠ [].
Proof.
  unfold usersOf, timestampsOf. rewrite elem_of_list_to_set, list_elem_of_fmap. split.
  - intros (tx & -> & Htx) Hnil. apply fmap_nil_inv in Hnil.
    assert (tx ∈ filter (λ tx', UserID tx' = UserID tx) txs) as Hin
      by by apply list_elem_of_filter.
    rewrite Hnil in Hin. by apply elem_of_nil in Hin.
  - intros Hne. destruct (filter (λ tx, UserID tx = u) txs) as [|tx l] eqn:Hf; [done|].
    assert (tx ∈ filter (λ tx, UserID tx = u) txs) as Hin by (rewrite Hf; left).
    apply list_elem_of_filter in Hin as [<- Hin]. by exists tx.
Qed.

Lemma denseWindow_nonempty d k ts : denseWindow d k ts → ts ≠ [].
Proof. intros Hd ->. unfold denseWindow in Hd. by apply Exists_nil in Hd. Qed.

(** X3.  Only users of the batch are flagged, and each on the strength of
    their own transactions alone: whether a user is flagged does not change
    when the transactions of all other users are taken out of the batch. *)
Theorem users_are_judged_alone periods transactions userID :
  sequential periods transactions ⊆ usersOf transactions
  ∧ (userID ∈ sequential periods transactions
     ↔ userID ∈ sequential periods
                  (filter (λ tx, UserID tx = userID) transactions)).
Proof.
  split.
  - intros u (p & _ & Hd)%sequential_elem. apply usersOf_elem.
    by eapply denseWindow_nonempty.
  - rewrite !sequential_elem. unfold timestampsOf.
    by rewrite list_filter_filter_l.
Qed.

(** X4.  A period whose threshold is negative, or zero with a duration
    that is not negative, flags every user of the batch. *)
Theorem nonpositive_threshold_flags_every_user periods transactions period :
  period ∈ periods →
  Threshold period < 0 ∨ (Threshold period = 0 ∧ 0 ≤ PeriodDuration period) →
  sequential periods transactions = usersOf transactions.
Proof.
  intros Hp Hk. apply set_eq. intros u. split.
  - apply users_are_judged_alone. exact u.
  - rewrite usersOf_elem, sequential_elem. intros Hne.
    exists period. split; [done|].
    destruct (timestampsOf u transactions) as [|t ts] eqn:Hts; [done|].
    apply Exists_cons_hd. unfold windowCount.
    destruct Hk as [Hneg|[-> Hd]]; [lia|].
    rewrite filter_cons_True; [simpl; lia|].
    split; [lia|]. by rewrite Sub_diag.
Qed.

Lemma nonpositive_threshold_flags_every_user_witness :
  NewVelocityPeriod week 0 ∈ [NewVelocityPeriod month 20; NewVelocityPeriod week 0]
  ∧ sequential [NewVelocityPeriod month 20; NewVelocityPeriod week 0] oneViolation
    = usersOf oneViolation.
Proof.
  assert (NewVelocityPeriod week 0
          ∈ [NewVelocityPeriod month 20; NewVelocityPeriod week 0]) as Hin.
  { right. left. }
  split; [exact Hin|].
  apply (nonpositive_threshold_flags_every_user _ oneViolation _ Hin).
  right. split; [reflexivity|]. by vm_compute.
Defined.

Lemma Sub_nonneg t u : u ≤ t → 0 ≤ Sub t u.
Proof. unfold Sub, maxDuration, minDuration. intros. split_ltb; lia. Qed.

(** X5.  Periods with a negative duration and a threshold that is not
    negative flag nobody: the left boundary passes the right one at every
    turn and the window is empty. *)
Theorem negative_duration_flags_nobody periods transactions :
  (∀ period, period ∈ periods → PeriodDuration period < 0 ∧ 0 ≤ Threshold period) →
  sequential periods transactions = ∅.
Proof.
  intros Hneg. apply set_eq. intros u. split; [|set_solver].
  intros (p & Hp & Hd)%sequential_elem. exfalso.
  destruct (Hneg p Hp) as [Hd0 Hk].
  apply Exists_exists in Hd as (t & _ & Hcount).
  unfold windowCount in Hcount. rewrite filter_none in Hcount; [simpl in Hcount; lia|].
  apply Forall_forall. intros a _ [Hle Hsub].
  pose proof (Sub_nonneg t a Hle). lia.
Qed.

Lemma negative_duration_flags_nobody_witness :
  sequential [NewVelocityPeriod (-1) 0] oneViolation = ∅.
Proof.
  apply (negative_duration_flags_nobody [NewVelocityPeriod (-1) 0] oneViolation).
  intros period ->%list_elem_of_singleton. simpl. lia.
Defined.

Lemma filter_length_mono {A} (P Q : A → Prop) `{∀ x, Decision (P x)}
    `{∀ x, Decision (Q x)} (l : list A) :
  (∀ x, P x → Q x) → (length (filter P l) ≤ length (filter Q l))%nat.
Proof.
  intros HPQ. induction l as [|x l IH]; [done|].
  rewrite !filter_cons. destruct (decide (P x)) as [HP|HP].
  - rewrite decide_True by auto. simpl. lia.
  - destruct (decide (Q x)); simpl; lia.
Qed.

(** X6.  A longer duration or a lower threshold only flags more users. *)
Theorem wider_period_flags_more period period' transactions :
  PeriodDuration period ≤ PeriodDuration period' →
  Threshold period' ≤ Threshold period →
  sequential [period] transactions ⊆ sequential [period'] transactions.
Proof.
  intros Hd Hk u (p & ->%list_elem_of_singleton & Hdense)%sequential_elem.
  apply sequential_elem. exists period'. split; [left|].
  unfold denseWindow in *. rewrite Exists_exists in *.
  destruct Hdense as (t & Ht & Hcount). exists t. split; [done|].
  eapply Z.le_lt_trans; [exact Hk|]. eapply Z.lt_le_trans; [exact Hcount|].
  apply inj_le. unfold windowCount. apply filter_length_mono.
  intros a [? ?]. split; [done|lia].
Qed.

Lemma wider_period_flags_more_witness :
  PeriodDuration (NewVelocityPeriod week 3) ≤ PeriodDuration (NewVelocityPeriod month 2)
  ∧ Threshold (NewVelocityPeriod month 2) ≤ Threshold (NewVelocityPeriod week 3)
  ∧ sequential [NewVelocityPeriod week 3] sortedFour
    ⊆ sequential [NewVelocityPeriod month 2] sortedFour.
Proof.
  assert (PeriodDuration (NewVelocityPeriod week 3)
          ≤ PeriodDuration (NewVelocityPeriod month 2)) as Hd by by vm_compute.
  assert (Threshold (NewVelocityPeriod month 2)
          ≤ Threshold (NewVelocityPeriod week 3)) as Hk by by vm_compute.
  split; [exact Hd|]. split; [exact Hk|].
  apply (wider_period_flags_more _ _ sortedFour Hd Hk).
Defined.

(** X7.  The periods are alternatives: the set flagged for a list of
    periods is the union of the sets flagged for its parts, so neither the
    order of the periods nor the early return at the first violating one
    shows in the result. *)
Theorem periods_flag_the_union periods periods' transactions :
  sequential (periods ++ periods') transactions
  = sequential periods transactions ∪ sequential periods' transactions
  ∧ (∀ reordered, reordered ≡ₚ periods →
       sequential reordered transactions = sequential periods transactions).
Proof.
  split.
  - apply set_eq. intros u. rewrite elem_of_union, !sequential_elem.
    unfold violatesSome. setoid_rewrite elem_of_app. naive_solver.
  - intros reordered Hp. apply set_eq. intros u. rewrite !sequential_elem.
    unfold violatesSome. by setoid_rewrite Hp.
Qed.

(** ** The grouping loop *)

Lemma partition_snoc txs tx : partition (txs ++ [tx]) = appendTx (partition txs) tx.
Proof. unfold partition. by rewrite foldl_app. Qed.

Lemma appendTx_entries (m : gmap UUID (list Transaction)) tx :
  map_to_list (appendTx m tx) ≫= snd ≡ₚ (map_to_list m ≫= snd) ++ [tx].
Proof.
  unfold appendTx. destruct (m !! UserID tx) as [old|] eqn:Hu; simpl.
  - rewrite <- insert_delete_eq.
    rewrite map_to_list_insert by apply lookup_delete_eq.
    rewrite <- (map_to_list_delete m (UserID tx) old Hu). simpl.
    rewrite <- !app_assoc. apply Permutation_app_head, Permutation_app_comm.
  - rewrite map_to_list_insert by done. simpl.
    apply Permutation_cons_append.
Qed.

(** X8.  The grouping loop loses and invents nothing: the groups, put
    together, are the batch up to order; the keys are the users of the
    batch; and the group of a user is the sub-sequence of that user's
    transactions, in the order of the batch, never empty. *)
Theorem partition_is_a_grouping transactions :
  map_to_list (partition transactions) ≫= snd ≡ₚ transactions
  ∧ dom (partition transactions) = usersOf transactions
  ∧ (∀ userID txs, partition transactions !! userID = Some txs →
       txs ≠ [] ∧ txs = filter (λ tx, UserID tx = userID) transactions).
Proof.
  split; [|split].
  - induction transactions as [|tx txs IH] using rev_ind.
    + unfold partition. simpl. by rewrite map_to_list_empty.
    + by rewrite partition_snoc, appendTx_entries, IH.
  - apply set_eq. intros u. rewrite elem_of_dom, usersOf_elem.
    unfold timestampsOf. rewrite partition_lookup.
    destruct (filter _ transactions); simpl; [|done].
    split; [by intros [? ?]|done].
  - intros u txs Hu. apply partition_lookup_Some in Hu. naive_solver.
Qed.

(** ** The stateless rules *)

Lemma blacklist_foldl c acc txs u :
  u ∈ foldl (CountryBlackListProcessor.flag c) acc txs
  ↔ u ∈ acc ∨ ∃ tx, tx ∈ txs ∧ UserID tx = u
                     ∧ Country tx ∈ CountryBlackListProcessor.Blacklist c.
Proof.
  revert acc. induction txs as [|tx txs IH]; intros acc; simpl.
  - split; [by left|]. intros [?|(tx & Hin & _)]; [done|]. by apply elem_of_nil in Hin.
  - rewrite IH. unfold CountryBlackListProcessor.flag.
    setoid_rewrite elem_of_cons. case_decide; set_solver.
Qed.

(** X9.  [CountryBlackListProcessor.Process] flags exactly the users with
    a transaction from a listed country.  So a batch may be cut anywhere
    and the parts processed apart, listing more countries flags the union,
    and an empty or nil list flags nobody. *)
Theorem blacklist_flags_listed_countries c c' ctx transactions transactions' userID :
  (userID ∈ CountryBlackListProcessor.Process c ctx transactions
   ↔ ∃ tx, tx ∈ transactions ∧ UserID tx = userID
           ∧ Country tx ∈ CountryBlackListProcessor.Blacklist c)
  ∧ CountryBlackListProcessor.Process c ctx (transactions ++ transactions')
    = CountryBlackListProcessor.Process c ctx transactions
      ∪ CountryBlackListProcessor.Process c ctx transactions'
  ∧ CountryBlackListProcessor.Process
      {| CountryBlackListProcessor.Blacklist :=
           CountryBlackListProcessor.Blacklist c
           ∪ CountryBlackListProcessor.Blacklist c' |} ctx transactions
    = CountryBlackListProcessor.Process c ctx transactions
      ∪ CountryBlackListProcessor.Process c' ctx transactions
  ∧ CountryBlackListProcessor.Process
      {| CountryBlackListProcessor.Blacklist := ∅ |} ctx transactions = ∅.
Proof.
  assert (∀ b txs u, u ∈ CountryBlackListProcessor.Process b ctx txs
            ↔ ∃ tx, tx ∈ txs ∧ UserID tx = u
                    ∧ Country tx ∈ CountryBlackListProcessor.Blacklist b) as Hiff.
  { intros b txs u. unfold CountryBlackListProcessor.Process.
    rewrite blacklist_foldl. set_solver. }
  split; [apply Hiff|]. split; [|split].
  - apply set_eq. intros u. rewrite elem_of_union, !Hiff.
    setoid_rewrite elem_of_app. naive_solver.
  - apply set_eq. intros u. rewrite elem_of_union, !Hiff. simpl.
    setoid_rewrite elem_of_union. naive_solver.
  - apply set_eq. intros u. rewrite Hiff. simpl. set_solver.
Qed.

Lemma amount_foldl GreaterThan c acc txs u :
  u ∈ foldl (TransactionAmountProcessor.flag GreaterThan c) acc txs
  ↔ u ∈ acc ∨ ∃ tx, tx ∈ txs ∧ UserID tx = u
                     ∧ GreaterThan (Amount tx) (TransactionAmountProcessor.Threshold c)
                       = true.
Proof.
  revert acc. induction txs as [|tx txs IH]; intros acc; simpl.
  - split; [by left|]. intros [?|(tx & Hin & _)]; [done|]. by apply elem_of_nil in Hin.
  - rewrite IH. unfold TransactionAmountProcessor.flag.
    setoid_rewrite elem_of_cons.
    destruct (GreaterThan (Amount tx) _) eqn:Hgt; [set_solver|].
    split; [naive_solver|].
    intros [?|(tx' & [->|?] & ? & ?)]; [by left|congruence|right; by exists tx'].
Qed.

(** X10.  [TransactionAmountProcessor.Process] flags exactly the users
    with a transaction whose amount is greater than the threshold, whatever
    comparison [GreaterThan] is; a batch may be cut anywhere and the parts
    processed apart, and reordering the batch changes nothing. *)
Theorem amount_flags_large_transactions GreaterThan c ctx
    transactions transactions' userID :
  (userID ∈ TransactionAmountProcessor.Process GreaterThan c ctx transactions
   ↔ ∃ tx, tx ∈ transactions ∧ UserID tx = userID
           ∧ GreaterThan (Amount tx) (TransactionAmountProcessor.Threshold c) = true)
  ∧ TransactionAmountProcessor.Process GreaterThan c ctx (transactions ++ transactions')
    = TransactionAmountProcessor.Process GreaterThan c ctx transactions
      ∪ TransactionAmountProcessor.Process GreaterThan c ctx transactions'
  ∧ (∀ reordered, reordered ≡ₚ transactions →
       TransactionAmountProcessor.Process GreaterThan c ctx reordered
       = TransactionAmountProcessor.Process GreaterThan c ctx transactions).
Proof.
  assert (∀ txs u, u ∈ TransactionAmountProcessor.Process GreaterThan c ctx txs
            ↔ ∃ tx, tx ∈ txs ∧ UserID tx = u
                    ∧ GreaterThan (Amount tx) (TransactionAmountProcessor.Threshold c)
                      = true) as Hiff.
  { intros txs u. unfold TransactionAmountProcessor.Process.
    rewrite amount_foldl. set_solver. }
  split; [apply Hiff|]. split.
  - apply set_eq. intros u. rewrite elem_of_union, !Hiff.
    setoid_rewrite elem_of_app. naive_solver.
  - intros reordered Hp. apply set_eq. intros u. rewrite !Hiff.
    by setoid_rewrite Hp.
Qed.

(** ** The single-window rule against the velocity processor *)

Lemma VelocityValidator_advance c txs right fuel left :
  VelocityValidator.advance c txs right fuel left
  = advanceLeft 0 txs (VelocityValidator.Window c) right fuel left.
Proof.
  revert left. induction fuel as [|fuel IH]; intros left; [done|].
  simpl. by rewrite IH.
Qed.

Lemma VelocityValidator_loop c txs todo right left :
  VelocityValidator.loop c txs todo right left
  = windowLoop 0 txs
      (NewVelocityPeriod (VelocityValidator.Window c) (VelocityValidator.Threshold c))
      todo right left.
Proof.
  revert right left. induction todo as [|todo IH]; intros right left; [done|].
  simpl. by rewrite VelocityValidator_advance, IH.
Qed.

Lemma VelocityValidator_flagUser c acc entry :
  VelocityValidator.flagUser c acc entry
  = flagUser
      [NewVelocityPeriod (VelocityValidator.Window c) (VelocityValidator.Threshold c)]
      acc entry.
Proof.
  unfold VelocityValidator.flagUser, flagUser,
    VelocityValidator.checkVelocityWithSlidingWindow.
  rewrite VelocityValidator_loop. simpl.
  unfold hasViolatedVelocity, hasViolatedVelocityWith.
  by destruct (windowLoop _ _ _ _ _ _).
Qed.

(** X11.  The earlier [VelocityValidator], with its one window and its
    early return on an empty batch, flags exactly the users that
    [VelocityProcessor] flags when configured with the single period
    (window, threshold), under every iteration order of the map. *)
Theorem VelocityValidator_is_the_single_period_processor c ctx transactions order :
  iterationOrder (partition transactions) order →
  VelocityValidator.ProcessIn c transactions order
  = sequential
      [NewVelocityPeriod (VelocityValidator.Window c) (VelocityValidator.Threshold c)]
      transactions
  ∧ VelocityValidator.Process c ctx transactions
    = sequential
        [NewVelocityPeriod (VelocityValidator.Window c) (VelocityValidator.Threshold c)]
        transactions.
Proof.
  intros Hord.
  assert (∀ o, iterationOrder (partition transactions) o →
            VelocityValidator.ProcessIn c transactions o
            = sequential
                [NewVelocityPeriod (VelocityValidator.Window c)
                   (VelocityValidator.Threshold c)] transactions) as H.
  { intros o Ho. unfold VelocityValidator.ProcessIn.
    destruct transactions as [|tx txs].
    - by rewrite sequential_no_transactions.
    - unfold sequential.
      rewrite <- (iterationOrder_verdict _ Background _ o Ho). simpl.
      unfold flagUsersIn. clear Ho. generalize (∅ : gset UUID).
      induction o as [|e o IH]; intros acc; [done|]. simpl.
      rewrite VelocityValidator_flagUser. apply IH. }
  split; [by apply H|]. apply H. by unfold iterationOrder.
Qed.

Lemma VelocityValidator_is_the_single_period_processor_witness :
  VelocityValidator.Process
    {| VelocityValidator.Threshold := 2; VelocityValidator.Window := week |}
    Background oneViolation
  = sequential [NewVelocityPeriod week 2] oneViolation.
Proof.
  apply (VelocityValidator_is_the_single_period_processor
           {| VelocityValidator.Threshold := 2; VelocityValidator.Window := week |}
           Background oneViolation (map_to_list (partition oneViolation))).
  unfold iterationOrder. reflexivity.
Defined.

(** ** The pool when the context is done before the call *)

Lemma fire_barren cfg periods a s s' :
  barren s → fire cfg periods a s = Next s' → barren s'.
Proof.
  intros (Hdone & Hws & Hrq & Hf) Hfire.
  destruct a; simpl in Hfire; rewrite ?Hdone, ?Hrq in Hfire;
    repeat case_match; simplify_eq; unfold barren; simpl;
    try (by repeat split);
    try (by match goal with H : _ !! _ = Some (Sending _) |- _ => apply Hws in H end).
  all: repeat split; try done.
  all: intros j result Hj;
    match goal with
    | H : _ !! ?i = Some _ |- _ =>
        destruct (decide (i = j)) as [->|Hne];
        [rewrite list_lookup_insert_eq in Hj by (by eapply lookup_lt_Some); done
        |rewrite list_lookup_insert_ne in Hj by done; by apply Hws in Hj]
    end.
Qed.

Lemma run_barren cfg periods s s' :
  barren s → rtc (step cfg periods) s s' → barren s'.
Proof.
  intros Hs Hrun. induction Hrun as [|s1 s2 s3 [a Ha] _ IH]; [done|].
  apply IH. by eapply fire_barren.
Qed.

Lemma start_barren order wc : barren (start (Cancellable true) order wc).
Proof.
  repeat split. intros i result [[=] _]%lookup_replicate.
Qed.

Lemma poolReturns_cancelled cfg periods wc txs c' F :
  poolReturns cfg periods (Cancellable true) wc txs c' F → F = ∅ ∧ c' = Cancellable true.
Proof.
  intros (order & s & _ & Hrun & _ & <- & <-).
  pose proof (run_barren _ _ _ _ (start_barren order wc) Hrun) as (Hdone & _ & _ & Hf).
  split; [done|]. destruct (ctx s) as [|[]]; done.
Qed.

(** X12.  Called with a context that is already done, the worker pool and
    the pipeline return the empty set, whatever the batch, the periods and
    the worker count: every job a worker receives is dropped at the
    [select], so no [processUser] runs and no result is ever sent. *)
Theorem cancelled_before_the_call_flags_nobody periods workerCount transactions :
  (∀ c' flagged,
     workerPool periods workerCount (Cancellable true) transactions c' flagged →
     flagged = ∅)
  ∧ (∀ c' flagged,
       pipeline periods workerCount (Cancellable true) transactions c' flagged →
       flagged = ∅)
  ∧ workerPool periods workerCount (Cancellable true) transactions (Cancellable true) ∅
  ∧ pipeline periods workerCount (Cancellable true) transactions (Cancellable true) ∅.
Proof.
  split; [|split; [|split]].
  - intros c' F HF. by apply poolReturns_cancelled in HF as [-> _].
  - intros c' F HF. by apply poolReturns_cancelled in HF as [-> _].
  - destruct (poolReturns_some (WorkerVelocityProcessor.config transactions) periods
                transactions (λ order, worker_roomy transactions order)
                (Cancellable true)
                (WorkerVelocityProcessor.WorkerCount
                   (WorkerVelocityProcessor.NewWorkerVelocityProcessor periods
                      workerCount))) as (F & HF).
    by destruct (poolReturns_cancelled _ _ _ _ _ _ HF) as [<- _].
  - destruct (poolReturns_some ConcurrentVelocityProcessor.config periods transactions
                (λ order _, pipeline_roomy (length order)) (Cancellable true)
                workerCount) as (F & HF).
    by destruct (poolReturns_cancelled _ _ _ _ _ _ HF) as [<- _].
Qed.

(** ** The worker pool's channels *)

(** X13.  In the worker pool no send ever blocks: both channels are made
    with room for one element per user, so in every state of every run the
    producer's pending send and the send of any worker that holds a result
    can be taken at once. *)
Theorem workerPool_sends_never_block periods workerCount transactions c order s :
  iterationOrder (partition transactions) order →
  rtc (step (WorkerVelocityProcessor.config transactions) periods)
    (start c order workerCount) s →
  (jobsClosed s = false → pending s ≠ [] →
   ∃ s', fire (WorkerVelocityProcessor.config transactions) periods ProducerSend s
         = Next s')
  ∧ (∀ i result, workers s !! i = Some (Sending result) →
     ∃ s', fire (WorkerVelocityProcessor.config transactions) periods (WorkerSend i) s
           = Next s').
Proof.
  intros Hord Hrun.
  destruct (reachable_inv _ _ _ _ _ _ Hrun) as [_ _ Hcl _ _ _ _ Hfl _].
  rewrite (iterationOrder_length _ _ Hord) in Hfl. unfold inFlight in Hfl.
  split.
  - intros Hjc Hp. simpl. rewrite Hjc.
    destruct (pending s) as [|[u txs] rest]; [done|]. simpl in Hfl.
    rewrite bool_decide_eq_true_2 by lia. by eexists.
  - intros i result Hi. simpl. rewrite Hi.
    destruct (sum_split busy _ _ _ Hi) as (m & Hm & _). rewrite Hm in Hfl. simpl in Hfl.
    destruct (resultsClosed s) eqn:Hrc.
    + specialize (Hcl eq_refl). rewrite allExited_true in Hcl.
      by specialize (Hcl _ _ Hi).
    + rewrite bool_decide_eq_true_2 by lia. by eexists.
Qed.

Lemma workerPool_sends_never_block_witness :
  ∃ s,
    runSchedule (WorkerVelocityProcessor.config oneViolation) [NewVelocityPeriod week 2]
      [ProducerSend; WorkerReceive 0; WorkerCheck 0]
      (start Background (map_to_list (partition oneViolation)) 4) = Some s
    ∧ (∃ s', fire (WorkerVelocityProcessor.config oneViolation)
               [NewVelocityPeriod week 2] ProducerSend s = Next s')
    ∧ (∃ s' result, workers s !! 0%nat = Some (Sending result)
         ∧ fire (WorkerVelocityProcessor.config oneViolation)
             [NewVelocityPeriod week 2] (WorkerSend 0) s = Next s').
Proof.
  eexists. split; [vm_compute; reflexivity|].
  match goal with
  | |- (∃ s', fire _ _ _ ?s = _) ∧ _ =>
      pose proof (workerPool_sends_never_block [NewVelocityPeriod week 2] 4 oneViolation
                    Background (map_to_list (partition oneViolation)) s) as H
  end.
  destruct H as [Hprod Hwork].
  - unfold iterationOrder. reflexivity.
  - apply (runSchedule_rtc _ _ [ProducerSend; WorkerReceive 0; WorkerCheck 0]).
    vm_compute. reflexivity.
  - split; [by apply Hprod|].
    destruct (Hwork 0%nat _ eq_refl) as (s' & Hs'). by eexists s', _.
Defined.

(** ** The pipeline without workers *)

Lemma fire_unserved cfg periods order a s s' :
  unserved cfg order s → fire cfg periods a s = Next s' → unserved cfg order s'.
Proof.
  intros (Hws & Hctx & Hsplit & Hcap & Hclosed) Hfire.
  destruct a; simpl in Hfire; rewrite ?Hws, ?Hctx in Hfire; simpl in Hfire;
    repeat case_match; simplify_eq; unfold unserved; simpl in *;
    try (by repeat split).
  - match goal with H : bool_decide _ = true |- _ => apply bool_decide_eq_true in H end.
    repeat split; try done.
    + rewrite fmap_app, <- app_assoc. done.
    + rewrite length_app. simpl. lia.
Qed.

Lemma run_unserved cfg periods order s s' :
  unserved cfg order s → rtc (step cfg periods) s s' → unserved cfg order s'.
Proof.
  intros Hs Hrun. induction Hrun as [|s1 s2 s3 [a Ha] _ IH]; [done|].
  apply IH. by eapply fire_unserved.
Qed.

(** X14.  With a worker count of zero or less, more than 1000 users and
    [context.Background()], the goroutine started by [fanOut] never ends:
    nothing empties its channel of capacity 1000, so in every state of
    every run the channel is still open, and once nothing is left to
    schedule [Process] has returned while map entries remain unsent. *)
Theorem pipeline_without_workers_strands_the_producer periods workerCount
    transactions order s :
  workerCount ≤ 0 →
  (1000 < size (partition transactions))%nat →
  iterationOrder (partition transactions) order →
  rtc (step ConcurrentVelocityProcessor.config periods)
    (start Background order
       (ConcurrentVelocityProcessor.WorkerCount
          (ConcurrentVelocityProcessor.NewConcurrentVelocityProcessor periods
             workerCount))) s →
  jobsClosed s = false
  ∧ (quiescent ConcurrentVelocityProcessor.config periods s →
     returned s = true ∧ flaggedUsers s = ∅ ∧ pending s ≠ []).
Proof.
  intros Hwc Hmany Hord Hrun. simpl in Hrun.
  assert (unserved ConcurrentVelocityProcessor.config order s)
    as (Hws & Hctx & Hsplit & Hcap & Hclosed).
  { eapply run_unserved; [|exact Hrun]. unfold unserved. simpl.
    replace (Z.to_nat workerCount) with 0%nat by lia. repeat split; [lia|done]. }
  rewrite <- (iterationOrder_length _ _ Hord), <- Hsplit in Hmany.
  rewrite length_app, length_fmap in Hmany. simpl in Hcap.
  assert (jobsClosed s = false) as Hopen.
  { destruct (jobsClosed s); [|done]. rewrite Hclosed in Hmany by done.
    simpl in Hmany. lia. }
  split; [done|]. intros Hq.
  pose proof (reachable_inv _ _ _ _ _ _ Hrun) as Hinv.
  destruct (quiescent_done _ _ _ _ _ _ _ Hinv (pipeline_roomy _) Hq) as (Hret & _ & _).
  split; [done|]. split.
  - eapply run_no_worker; [|exact Hrun]. simpl.
    replace (Z.to_nat workerCount) with 0%nat by lia. done.
  - intros Hp. rewrite Hp in Hmany. simpl in Hmany. lia.
Qed.

Lemma pipeline_without_workers_strands_the_producer_witness :
  ∃ s,
    runSchedule ConcurrentVelocityProcessor.config [NewVelocityPeriod week 2]
      (replicate 1000 ProducerSend ++ [CloseResults; Return])
      (start Background (map_to_list (partition manyUsers)) 0) = Some s
    ∧ jobsClosed s = false
    ∧ returned s = true ∧ flaggedUsers s = ∅ ∧ pending s ≠ [].
Proof.
  eexists. split; [vm_compute; reflexivity|].
  match goal with
  | |- jobsClosed ?s = _ ∧ _ =>
      destruct (pipeline_without_workers_strands_the_producer
                  [NewVelocityPeriod week 2] 0 manyUsers
                  (map_to_list (partition manyUsers)) s) as [Hopen Hstuck]
  end.
  - lia.
  - vm_compute. lia.
  - unfold iterationOrder. reflexivity.
  - apply (runSchedule_rtc _ _ (replicate 1000 ProducerSend ++ [CloseResults; Return])).
    vm_compute. reflexivity.
  - split; [exact Hopen|]. apply Hstuck.
    intros a s'. destruct a; vm_compute; discriminate.
Defined.

(** ** The pool: every goroutine ends *)

(** X15.  When the worker pool (with any worker count) or the pipeline
    (with a positive one) has nothing left to schedule, cancelled or not,
    [Process] has returned, every worker has returned and the producer has
    closed the job channel: no goroutine outlives the run. *)
Theorem no_goroutine_outlives_the_run periods workerCount transactions c order s s' :
  0 < workerCount →
  iterationOrder (partition transactions) order →
  rtc (step (WorkerVelocityProcessor.config transactions) periods)
    (start c order
       (WorkerVelocityProcessor.WorkerCount
          (WorkerVelocityProcessor.NewWorkerVelocityProcessor periods workerCount))) s →
  rtc (step ConcurrentVelocityProcessor.config periods)
    (start c order
       (ConcurrentVelocityProcessor.WorkerCount
          (ConcurrentVelocityProcessor.NewConcurrentVelocityProcessor periods
             workerCount))) s' →
  (quiescent (WorkerVelocityProcessor.config transactions) periods s →
   returned s = true ∧ allExited (workers s) = true ∧ jobsClosed s = true)
  ∧ (quiescent ConcurrentVelocityProcessor.config periods s' →
     returned s' = true ∧ allExited (workers s') = true ∧ jobsClosed s' = true).
Proof.
  intros Hwc Hord Hs Hs'. split; intros Hq.
  - destruct (quiescent_done _ _ _ _ _ _ _ (reachable_inv _ _ _ _ _ _ Hs)
                (worker_roomy _ _ Hord) Hq) as (? & ? & Hp).
    repeat split; [done..|]. apply Hp. right.
    pose proof (workerPool_count_pos periods workerCount). lia.
  - destruct (quiescent_done _ _ _ _ _ _ _ (reachable_inv _ _ _ _ _ _ Hs')
                (pipeline_roomy _) Hq) as (? & ? & Hp).
    repeat split; [done..|]. apply Hp. right. simpl. lia.
Qed.

(** Nothing is enabled in a concrete state: every action is tried. *)
Ltac all_disabled :=
  let a := fresh "a" in let s := fresh "s" in let i := fresh "i" in
  intros a s;
  destruct a as [| | | |i|i|i|i|i| | |]; try done;
  repeat (destruct i as [|i]; try done).

Lemma no_goroutine_outlives_the_run_witness :
  ∃ s s',
    runSchedule (WorkerVelocityProcessor.config exactThreshold) [NewVelocityPeriod week 2]
      [ProducerSend; ProducerClose; WorkerReceive 0; WorkerCheck 0; WorkerSend 0;
       WorkerDrained 0; WorkerDrained 1; CloseResults; Collect; Return]
      (start Background (map_to_list (partition exactThreshold)) 2) = Some s
    ∧ runSchedule ConcurrentVelocityProcessor.config [NewVelocityPeriod week 2]
        [ProducerSend; ProducerClose; WorkerReceive 1; WorkerCheck 1; WorkerSend 1;
         WorkerDrained 0; WorkerDrained 1; Collect; CloseResults; Return]
        (start Background (map_to_list (partition exactThreshold)) 2) = Some s'
    ∧ (returned s = true ∧ allExited (workers s) = true ∧ jobsClosed s = true)
    ∧ (returned s' = true ∧ allExited (workers s') = true ∧ jobsClosed s' = true).
Proof.
  eexists. eexists.
  split; [vm_compute; reflexivity|]. split; [vm_compute; reflexivity|].
  match goal with
  | |- (returned ?s = _ ∧ _) ∧ (returned ?s' = _ ∧ _) =>
      destruct (no_goroutine_outlives_the_run [NewVelocityPeriod week 2] 2
                  exactThreshold Background (map_to_list (partition exactThreshold))
                  s s') as [Hw Hp]
  end.
  - lia.
  - unfold iterationOrder. reflexivity.
  - apply (runSchedule_rtc _ _
             [ProducerSend; ProducerClose; WorkerReceive 0; WorkerCheck 0; WorkerSend 0;
              WorkerDrained 0; WorkerDrained 1; CloseResults; Collect; Return]).
    vm_compute. reflexivity.
  - apply (runSchedule_rtc _ _
             [ProducerSend; ProducerClose; WorkerReceive 1; WorkerCheck 1; WorkerSend 1;
              WorkerDrained 0; WorkerDrained 1; Collect; CloseResults; Return]).
    vm_compute. reflexivity.
  - split; [apply Hw|apply Hp]; all_disabled.
Defined.

(** ** The per-user slices on the store *)

Lemma append_len growCap (h : Heap) s tx : len (append growCap h s tx).2 = S (len s).
Proof. unfold append. repeat case_match; done. Qed.

Lemma partitionHeap_len growCap (h : Heap) transactions u s :
  (partitionHeap growCap h transactions).2 !! u = Some s → (0 < len s)%nat.
Proof.
  unfold partitionHeap.
  assert (∀ txs (st : Heap * gmap UUID Slice),
            (∀ v t, st.2 !! v = Some t → (0 < len t)%nat) →
            ∀ v t, (foldl (appendTxHeap growCap) st txs).2 !! v = Some t →
                   (0 < len t)%nat) as H.
  { induction txs as [|tx txs IH]; intros st Hst; [done|]. simpl. apply IH.
    intros v t. unfold appendTxHeap.
    destruct (append growCap st.1 (default nilSlice (st.2 !! UserID tx)) tx)
      as [h' s'] eqn:Happ. simpl.
    destruct (decide (v = UserID tx)) as [->|Hv].
    - rewrite lookup_insert_eq. intros [= <-].
      pose proof (append_len growCap st.1 (default nilSlice (st.2 !! UserID tx)) tx) as Hl.
      rewrite Happ in Hl. simpl in Hl. lia.
    - rewrite lookup_insert_ne by done. apply Hst. }
  apply H. intros v t Hv. simpl in Hv. by rewrite lookup_empty in Hv.
Qed.

(** X16.  After the grouping loop every user's slice lies on an array that
    did not exist before the call, and no two users' slices lie on the
    same array: a job shares no memory with the caller or with another
    job. *)
Theorem jobs_own_their_arrays growCap (h : Heap) transactions :
  (∀ c, (c < growCap c)%nat) →
  (∀ u s, (partitionHeap growCap h transactions).2 !! u = Some s →
     ∃ a, array s = Some a ∧ (a ∉ dom h)
          ∧ a ∈ dom (partitionHeap growCap h transactions).1)
  ∧ (∀ u u' s s', u ≠ u' →
       (partitionHeap growCap h transactions).2 !! u = Some s →
       (partitionHeap growCap h transactions).2 !! u' = Some s' →
       array s ≠ array s').
Proof.
  intros Hgrow.
  destruct (partitionHeap_partitioned growCap Hgrow h transactions)
    as [_ Hown Hshare _].
  split; [|done]. intros u s Hs.
  destruct (Hown u s Hs) as (a & content & Ha & _ & Hnew & Hc & _).
  exists a. split; [done|]. split; [done|]. apply elem_of_dom. by eexists.
Qed.

Lemma jobs_own_their_arrays_witness :
  ∃ s s',
    (partitionHeap doubleCap twoUserHeap callerSlice).2 !! userID1 = Some s
    ∧ (partitionHeap doubleCap twoUserHeap callerSlice).2 !! userID2 = Some s'
    ∧ array s ≠ array s'.
Proof.
  eexists. eexists.
  split; [vm_compute; reflexivity|]. split; [vm_compute; reflexivity|].
  apply (proj2 (jobs_own_their_arrays doubleCap twoUserHeap callerSlice
                  ltac:(intros c; unfold doubleCap; lia)) userID1 userID2).
  - done.
  - vm_compute. reflexivity.
  - vm_compute. reflexivity.
Defined.

(** X17.  Read through the store, the map built by the grouping loop is
    the map of the value-passing model: each user's slice holds that
    user's transactions in the order of the batch. *)
Theorem partitionHeap_holds_the_groups growCap (h : Heap) transactions :
  (∀ c, (c < growCap c)%nat) →
  elems (partitionHeap growCap h transactions).1
    <$> (partitionHeap growCap h transactions).2
  = partition (elems h transactions).
Proof.
  intros Hgrow.
  pose proof (partitionHeap_partitioned growCap Hgrow h transactions) as Hp.
  apply map_eq. intros u. rewrite lookup_fmap, partition_lookup.
  destruct ((partitionHeap growCap h transactions).2 !! u) as [s|] eqn:Hs; simpl.
  - destruct (own_array _ _ _ Hp u s Hs)
      as (a & content & Ha & Hoff & _ & Hc & Hlen & Hcap & Htake).
    pose proof (partitionHeap_len _ _ _ _ _ Hs) as Hpos.
    assert (elems (partitionHeap growCap h transactions).1 s
            = filter (λ tx, UserID tx = u) (elems h transactions)) as ->.
    { unfold elems. rewrite Ha, Hoff, Hc. simpl. by rewrite drop_0. }
    destruct (filter _ (elems h transactions)) as [|tx l] eqn:Hf; [|done].
    apply (f_equal length) in Htake. rewrite length_take in Htake. simpl in Htake. lia.
  - by rewrite (no_stranger _ _ _ Hp u Hs).
Qed.

Lemma partitionHeap_holds_the_groups_witness :
  elems (partitionHeap doubleCap callerHeap callerSlice).1
    <$> (partitionHeap doubleCap callerHeap callerSlice).2
  = partition unsortedFour.
Proof.
  apply (partitionHeap_holds_the_groups doubleCap callerHeap callerSlice).
  intros c. unfold doubleCap. lia.
Defined.

(** X18.  Sorting every user's slice in place and testing it there flags
    the users that the value-passing evaluator flags, in whatever order
    the map's entries are visited. *)
Theorem in_place_evaluation_agrees growCap periods (h : Heap) transactions jobs :
  (∀ c, (c < growCap c)%nat) →
  jobs ≡ₚ map_to_list (partitionHeap growCap h transactions).2 →
  (processHeap growCap periods h transactions jobs).2
  = sequential periods (elems h transactions).
Proof.
  intros Hgrow Hjobs. apply (processHeap_sequential growCap Hgrow).
  - intros u s Hin. rewrite Hjobs in Hin. by apply elem_of_map_to_list.
  - intros u s Hs. rewrite Hjobs. by apply elem_of_map_to_list.
Qed.

Lemma in_place_evaluation_agrees_witness :
  (processHeap doubleCap [NewVelocityPeriod week 3] callerHeap callerSlice
     (map_to_list (partitionHeap doubleCap callerHeap callerSlice).2)).2
  = sequential [NewVelocityPeriod week 3] unsortedFour.
Proof.
  apply (in_place_evaluation_agrees doubleCap [NewVelocityPeriod week 3] callerHeap
           callerSlice).
  - intros c. unfold doubleCap. lia.
  - reflexivity.
Defined.

(** ** The two-pointer loop against a search over all stretches *)





(** ** Collecting the results *)

Lemma fanIn_foldl acc results u :
  u ∈ foldl collect acc results
  ↔ u ∈ acc ∨ ∃ r, r ∈ results ∧ ResUserID r = u ∧ HasViolation r = true.
Proof.
  revert acc. induction results as [|r results IH]; intros acc; simpl.
  - split; [by left|]. intros [?|(r & Hin & _)]; [done|]. by apply elem_of_nil in Hin.
  - rewrite IH. unfold collect. setoid_rewrite elem_of_cons.
    destruct (HasViolation r) eqn:Hv; [set_solver|].
    split; [naive_solver|].
    intros [?|(r' & [->|?] & ? & ?)]; [by left|congruence|right; by exists r'].
Qed.

(** X20.  The fold that collects the results flags the users of the
    results that carry a violation, so it depends on the results received
    only as a set: their order and a result received twice do not show. *)
Theorem fanIn_depends_on_the_set_of_results results results' userID :
  (userID ∈ fanIn results
   ↔ ∃ r, r ∈ results ∧ ResUserID r = userID ∧ HasViolation r = true)
  ∧ ((∀ r, r ∈ results ↔ r ∈ results') → fanIn results = fanIn results').
Proof.
  assert (∀ rs u, u ∈ fanIn rs
            ↔ ∃ r, r ∈ rs ∧ ResUserID r = u ∧ HasViolation r = true) as Hiff.
  { intros rs u. unfold fanIn. rewrite fanIn_foldl. set_solver. }
  split; [apply Hiff|]. intros Hsame. apply set_eq. intros u.
  rewrite !Hiff. by setoid_rewrite Hsame.
Qed.
